(** * Watermark: a shallow embedding of [watermark.go]

    The Go package overlays a watermark image on a source image, either once
    at a named position ([Apply]) or repeated on a grid ([Tile]); one pixel is
    composited by [blendColors].

    Conventions of the embedding.
    - Go's [int] is the 64-bit two's-complement integer: a [Z] with the
      wrap-around of every addition and subtraction written out ([int_wrap]).
    - [uint8] is [Byte.byte], so a byte out of range cannot be written down.
    - [float64] is IEEE 754 binary64 as the standard library specifies it
      ([SpecFloat], precision 53, maximal exponent 1024), every operation
      rounded on its own (no fused multiply-add). What [uint8(f)] gives for
      a float that is not a [uint8] is left to a class, [Arch]; the
      statements hold for every instance, the examples are computed with
      the one for amd64.
    - The images of package [image] are modelled through the methods the
      program calls ([Bounds], [At], [Set], [NewRGBA], [draw.Draw]); an
      [*image.RGBA] is a cell of a heap, so that allocation, aliasing and
      mutation are visible.
    - The packages [os], [image/jpeg] and [image/png] and the decoders of
      package [image] are outside the program: [ApplyFromFiles], [SaveJPEG]
      and [SavePNG] are functions of what those calls return, and the calls
      of [ApplyFromFiles] are logged in the order they are made. *)

From Stdlib Require Import ZArith Lia Bool List.
From Stdlib Require Import Strings.Byte.
From Stdlib Require Strings.String.
From Stdlib Require Import Floats.SpecFloat.
From stdpp Require Import base option list gmap.

Local Open Scope Z_scope.

(* ===================================================================== *)
(** * Machine integers *)
(* ===================================================================== *)

Module GoInt.

Definition minInt : Z := - 2 ^ 63.
Definition maxInt : Z := 2 ^ 63 - 1.

(** The value an [int] holds after an operation whose exact result is [z]. *)
Definition int_wrap (z : Z) : Z := (z + 2 ^ 63) mod 2 ^ 64 - 2 ^ 63.

Definition int_add (a b : Z) : Z := int_wrap (a + b).
Definition int_sub (a b : Z) : Z := int_wrap (a - b).
(** Go's [/] on integers truncates toward zero. *)
Definition int_quot (a b : Z) : Z := int_wrap (Z.quot a b).

Definition is_int (z : Z) : Prop := minInt <= z <= maxInt.

(** [uint8(v)] of an unsigned integer [v]: the low eight bits. *)
Definition uint8 (z : Z) : byte :=
  match Byte.of_N (Z.to_N (z mod 256)) with
  | Some b => b
  | None => x00
  end.

(** The number a [uint8] stands for. *)
Definition u8z (b : byte) : Z := Z.of_N (Byte.to_N b).

End GoInt.
Export GoInt.

(* ===================================================================== *)
(** * float64 *)
(* ===================================================================== *)

Module Float64.

Definition float64 : Type := spec_float.

Definition prec : Z := 53.
Definition emax : Z := 1024.

Definition fadd : float64 -> float64 -> float64 := SFadd prec emax.
Definition fsub : float64 -> float64 -> float64 := SFsub prec emax.
Definition fmul : float64 -> float64 -> float64 := SFmul prec emax.
Definition fdiv : float64 -> float64 -> float64 := SFdiv prec emax.
Definition fleb : float64 -> float64 -> bool := SFleb.
Definition fltb : float64 -> float64 -> bool := SFltb.

(** [float64(v)] of an integer [v]. *)
Definition of_Z (z : Z) : float64 := binary_normalize prec emax z 0 false.

(** Floating-point literals of the program. *)
Definition f0 : float64 := S754_zero false.
Definition f1 : float64 := of_Z 1.
Definition f65535 : float64 := of_Z 65535.
Definition fhalf : float64 := binary_normalize prec emax 1 (-1) false.

(** The integer part of a finite float (the fraction is discarded);
    [None] for infinities and NaN. *)
Definition trunc (f : float64) : option Z :=
  match f with
  | S754_zero _ => Some 0
  | S754_finite s m e => Some (cond_Zopp s (Z.shiftl (Z.pos m) e))
  | S754_infinity _ | S754_nan => None
  end.

End Float64.
Export Float64.

(** Go leaves the value of [uint8(f)] to the implementation when the
    truncated [f] is not a [uint8] (and when [f] is an infinity or NaN).
    The development is parametric in that choice. *)
Class Arch := { cvt_unrepresentable : float64 -> byte }.

(** The amd64 code generator: [CVTTSD2SL] to a 32-bit integer (the "integer
    indefinite" [0x80000000] when that overflows), then the low byte. *)
#[export] Instance amd64 : Arch :=
  {| cvt_unrepresentable f :=
       match trunc f with
       | Some z => if (- 2 ^ 31 <=? z) && (z <? 2 ^ 31) then uint8 z else x00
       | None => x00
       end |}.

(** [uint8(f)] of a [float64]: truncation toward zero. *)
Definition float_to_uint8 `{Arch} (f : float64) : byte :=
  match trunc f with
  | Some z =>
      if (0 <=? z) && (z <=? 255) then uint8 z else cvt_unrepresentable f
  | None => cvt_unrepresentable f
  end.

(* ===================================================================== *)
(** * Package [image/color] *)
(* ===================================================================== *)

(** [color.RGBA]: alpha-premultiplied, eight bits a channel. *)
Record RGBA : Type := mkRGBA { R : byte; G : byte; B : byte; A : byte }.

(** The implementations of the interface [color.Color] the development
    covers. The fields of [ColorRGBA64] are [uint16]: they are read modulo
    [2^16]. *)
Inductive Color : Type :=
| ColorRGBA (c : RGBA)
| ColorNRGBA (r g b a : byte)
| ColorRGBA64 (r g b a : Z)
| ColorGray (y : byte).

(** [r |= r << 8] on the [uint32] made from a byte. *)
Definition spread (b : byte) : Z := Z.lor (u8z b) (Z.shiftl (u8z b) 8).

(** The method [RGBA()]: alpha-premultiplied channels on the 16-bit scale. *)
Definition Color_RGBA (c : Color) : Z * Z * Z * Z :=
  match c with
  | ColorRGBA c => (spread (R c), spread (G c), spread (B c), spread (A c))
  | ColorNRGBA r g b a =>
      (spread r * u8z a / 255, spread g * u8z a / 255, spread b * u8z a / 255,
       spread a)
  | ColorRGBA64 r g b a =>
      (r mod 65536, g mod 65536, b mod 65536, a mod 65536)
  | ColorGray y => (spread y, spread y, spread y, 65535)
  end.

Definition red16 (c : Color) : Z := let '(r, _, _, _) := Color_RGBA c in r.
Definition green16 (c : Color) : Z := let '(_, g, _, _) := Color_RGBA c in g.
Definition blue16 (c : Color) : Z := let '(_, _, b, _) := Color_RGBA c in b.
Definition alpha16 (c : Color) : Z := let '(_, _, _, a) := Color_RGBA c in a.

(** [color.RGBAModel.Convert]: a [color.RGBA] is returned as it is, any
    other colour is reduced to the high byte of each channel. *)
Definition rgbaModel (c : Color) : RGBA :=
  match c with
  | ColorRGBA c => c
  | _ =>
      let '(r, g, b, a) := Color_RGBA c in
      mkRGBA (uint8 (Z.shiftr r 8)) (uint8 (Z.shiftr g 8))
             (uint8 (Z.shiftr b 8)) (uint8 (Z.shiftr a 8))
  end.

(* ===================================================================== *)
(** * [blendColors] *)
(* ===================================================================== *)

(** One channel of the blend:
    [uint8(float64(b>>8)*(1-overlayAlpha) + float64(o>>8)*overlayAlpha)]. *)
Definition blendChannel `{Arch} (b o : Z) (overlayAlpha : float64) : byte :=
  float_to_uint8
    (fadd (fmul (of_Z (Z.shiftr b 8)) (fsub f1 overlayAlpha))
          (fmul (of_Z (Z.shiftr o 8)) overlayAlpha)).

Definition blendColors `{Arch} (base overlay : Color) (opacity : float64)
  : Color :=
  let '(br, bg, bb, ba) := Color_RGBA base in
  let '(or, og, ob, oa) := Color_RGBA overlay in
  (* If watermark pixel is transparent, keep base *)
  if oa =? 0 then base
  else
    (* Apply opacity to overlay alpha *)
    let overlayAlpha := fmul (fdiv (of_Z oa) f65535) opacity in
    (* Blend *)
    let r := blendChannel br or overlayAlpha in
    let g := blendChannel bg og overlayAlpha in
    let b := blendChannel bb ob overlayAlpha in
    ColorRGBA (mkRGBA r g b (uint8 (Z.shiftr ba 8))).

(* ===================================================================== *)
(** * Package [image]: points, rectangles and RGBA buffers *)
(* ===================================================================== *)

Record Point : Type := mkPoint { X : Z; Y : Z }.
Record Rectangle : Type := mkRect { Min : Point; Max : Point }.

Definition Dx (r : Rectangle) : Z := int_sub (X (Max r)) (X (Min r)).
Definition Dy (r : Rectangle) : Z := int_sub (Y (Max r)) (Y (Min r)).

(** [p.In(r)]. *)
Definition Point_In (p : Point) (r : Rectangle) : bool :=
  (X (Min r) <=? X p) && (X p <? X (Max r)) &&
  (Y (Min r) <=? Y p) && (Y p <? Y (Max r)).

(** The coordinates of a rectangle are [int]s. *)
Definition int_rect (r : Rectangle) : Prop :=
  is_int (X (Min r)) /\ is_int (Y (Min r)) /\
  is_int (X (Max r)) /\ is_int (Y (Max r)).

#[export] Instance byte_inhabited : Inhabited byte := populate x00.

(** [image.RGBA]: [Pix] holds the pixels row by row, four bytes each. *)
Record RGBAImage : Type :=
  mkRGBAImage { Pix : list byte; Stride : Z; Rect : Rectangle }.

(** [image.NewRGBA]: a zeroed buffer; [None] is its panic on a rectangle of
    negative or huge dimensions. *)
Definition NewRGBA (r : Rectangle) : option RGBAImage :=
  let w := Dx r in
  let h := Dy r in
  if (w <? 0) || (h <? 0) || (maxInt <? 4 * w * h) then None
  else Some {| Pix := replicate (Z.to_nat (4 * w * h)) x00;
               Stride := 4 * w;
               Rect := r |}.

(** [p.PixOffset(x, y)]; it does not overflow on a buffer of [NewRGBA]. *)
Definition PixOffset (p : RGBAImage) (x y : Z) : Z :=
  (y - Y (Min (Rect p))) * Stride p + (x - X (Min (Rect p))) * 4.

Definition zeroRGBA : RGBA := mkRGBA x00 x00 x00 x00.

(** [p.RGBAAt(x, y)]: the zero colour outside the rectangle. *)
Definition RGBAAt (p : RGBAImage) (x y : Z) : RGBA :=
  if Point_In (mkPoint x y) (Rect p) then
    let i := Z.to_nat (PixOffset p x y) in
    mkRGBA (Pix p !!! i) (Pix p !!! (i + 1)%nat)
           (Pix p !!! (i + 2)%nat) (Pix p !!! (i + 3)%nat)
  else zeroRGBA.

(** The four bytes of a pixel written at offset [i]. *)
Definition write4 (i : nat) (c : RGBA) (pix : list byte) : list byte :=
  <[(i + 3)%nat := A c]>
    (<[(i + 2)%nat := B c]> (<[(i + 1)%nat := G c]> (<[i := R c]> pix))).

(** [p.Set(x, y, c)]: nothing happens outside the rectangle. *)
Definition RGBA_Set (p : RGBAImage) (x y : Z) (c : Color) : RGBAImage :=
  if Point_In (mkPoint x y) (Rect p) then
    let i := Z.to_nat (PixOffset p x y) in
    {| Pix := write4 i (rgbaModel c) (Pix p);
       Stride := Stride p;
       Rect := Rect p |}
  else p.

(* ===================================================================== *)
(** * The heap and the interface [image.Image] *)
(* ===================================================================== *)

Definition loc : Type := positive.

(** The [*image.RGBA] buffers that exist, by address. *)
Abbreviation heap := (gmap loc RGBAImage).

(** A value of the interface [image.Image]: a pointer to an RGBA buffer of
    the heap, or any implementation that nothing in this package can write
    to, given by its [Bounds] and [At]. *)
Inductive Image : Type :=
| ImageRGBA (l : loc)
| ImageFn (bounds : Rectangle) (at_ : Z -> Z -> Color).

(** [m.Bounds()]; [None] is the panic on a pointer to nothing. *)
Definition Image_Bounds (h : heap) (m : Image) : option Rectangle :=
  match m with
  | ImageRGBA l => Rect <$> h !! l
  | ImageFn b _ => Some b
  end.

(** [m.At(x, y)]. *)
Definition Image_At (h : heap) (m : Image) (x y : Z) : Color :=
  match m with
  | ImageRGBA l =>
      match h !! l with
      | Some p => ColorRGBA (RGBAAt p x y)
      | None => ColorRGBA zeroRGBA
      end
  | ImageFn _ f => f x y
  end.

(** [dst.Set(x, y, c)] on the buffer at address [dst]. *)
Definition dst_Set (h : heap) (dst : loc) (x y : Z) (c : Color) : heap :=
  alter (fun p => RGBA_Set p x y c) dst h.

(** [draw.Draw(dst, r, src, sp, draw.Src)]: every pixel of [r] is replaced
    by the pixel of [src] that lies at the same place relative to [sp].
    Both callers pass [r = dst.Bounds() = src.Bounds()], so the clipping
    [draw.Draw] starts with leaves [r] as it is. *)
Definition draw_Draw_Src (h : heap) (dst : loc) (r : Rectangle) (src : Image)
    (sp : Point) : heap :=
  foldl (fun h y =>
    foldl (fun h x =>
      dst_Set h dst x y
        (Image_At h src (X sp + (x - X (Min r))) (Y sp + (y - Y (Min r)))))
      h (seqZ (X (Min r)) (Dx r)))
    h (seqZ (Y (Min r)) (Dy r)).

(** How a call ends: it returns a value, it panics, or it has not returned
    after the iterations its loops were allowed ([OutOfFuel]; a call that
    is out of fuel whatever the fuel does not return). *)
Inductive outcome (T : Type) : Type :=
| Returns (v : T)
| Panics
| OutOfFuel.
Arguments Returns {T} v.
Arguments Panics {T}.
Arguments OutOfFuel {T}.

(* ===================================================================== *)
(** * [Position], [Options] *)
(* ===================================================================== *)

(** [type Position int] with its [iota] constants. *)
Definition Position : Type := Z.
Definition Center : Position := 0.
Definition TopLeft : Position := 1.
Definition TopRight : Position := 2.
Definition BottomLeft : Position := 3.
Definition BottomRight : Position := 4.

Record Options : Type := mkOptions {
  OptPosition : Position;
  Opacity : float64;
  PaddingX : Z;
  PaddingY : Z
}.

Definition DefaultOptions : Options :=
  {| OptPosition := BottomRight; Opacity := fhalf;
     PaddingX := 10; PaddingY := 10 |}.

(* ===================================================================== *)
(** * [Apply] *)
(* ===================================================================== *)

(** The [switch opts.Position] of [Apply]: the top-left corner [(x, y)] of
    the watermark; [var x, y int] stay zero when no case matches. *)
Definition placement (srcBounds wmBounds : Rectangle) (opts : Options)
  : Z * Z :=
  if OptPosition opts =? Center then
    (int_quot (int_sub (Dx srcBounds) (Dx wmBounds)) 2,
     int_quot (int_sub (Dy srcBounds) (Dy wmBounds)) 2)
  else if OptPosition opts =? TopLeft then
    (PaddingX opts, PaddingY opts)
  else if OptPosition opts =? TopRight then
    (int_sub (int_sub (Dx srcBounds) (Dx wmBounds)) (PaddingX opts),
     PaddingY opts)
  else if OptPosition opts =? BottomLeft then
    (PaddingX opts,
     int_sub (int_sub (Dy srcBounds) (Dy wmBounds)) (PaddingY opts))
  else if OptPosition opts =? BottomRight then
    (int_sub (int_sub (Dx srcBounds) (Dx wmBounds)) (PaddingX opts),
     int_sub (int_sub (Dy srcBounds) (Dy wmBounds)) (PaddingY opts))
  else (0, 0).

(** The two [if]s on [opts.Opacity]. *)
Definition normalizeOpacity (opacity : float64) : float64 :=
  let opacity := if fleb opacity f0 then fhalf else opacity in
  if fltb f1 opacity then f1 else opacity.

(** The body of the two inner loops of [Apply] at [(wx, wy)]. *)
Definition Apply_pixel `{Arch} (dst : loc) (watermark : Image)
    (srcBounds wmBounds : Rectangle) (x y : Z) (opacity : float64)
    (wy wx : Z) (h : heap) : heap :=
  let dx := int_add x wx in
  let dy := int_add y wy in
  if (dx <? 0) || (dx >=? Dx srcBounds) || (dy <? 0) || (dy >=? Dy srcBounds)
  then h
  else
    let srcColor := Image_At h (ImageRGBA dst) dx dy in
    let wmColor :=
      Image_At h watermark (int_add (X (Min wmBounds)) wx)
                           (int_add (Y (Min wmBounds)) wy) in
    let blended := blendColors srcColor wmColor opacity in
    dst_Set h dst dx dy blended.

(** [for wy := 0; wy < wmBounds.Dy(); wy++ { for wx := 0; ... } }]. *)
Definition Apply_loops `{Arch} (dst : loc) (watermark : Image)
    (srcBounds wmBounds : Rectangle) (x y : Z) (opacity : float64)
    (h : heap) : heap :=
  foldl (fun h wy =>
    foldl (fun h wx =>
      Apply_pixel dst watermark srcBounds wmBounds x y opacity wy wx h)
      h (seqZ 0 (Dx wmBounds)))
    h (seqZ 0 (Dy wmBounds)).

(** [Apply(src, watermark, opts)] run on the heap [h]: the address of the
    image it returns and the heap it leaves. *)
Definition Apply `{Arch} (h : heap) (src watermark : Image) (opts : Options)
  : outcome (loc * heap) :=
  match Image_Bounds h src, Image_Bounds h watermark with
  | Some srcBounds, Some wmBounds =>
      match NewRGBA srcBounds with
      | None => Panics
      | Some p =>
          let dst := fresh (dom h) in
          let h := <[dst := p]> h in
          let h := draw_Draw_Src h dst srcBounds src (Min srcBounds) in
          (* Calculate watermark position *)
          let '(x, y) := placement srcBounds wmBounds opts in
          (* Apply watermark with opacity *)
          let opacity := normalizeOpacity (Opacity opts) in
          Returns
            (dst, Apply_loops dst watermark srcBounds wmBounds x y opacity h)
      end
  | _, _ => Panics
  end.

(* ===================================================================== *)
(** * [Tile] *)
(* ===================================================================== *)

(** [for i := i; i < limit; i += stride { body }]; [None] when [fuel]
    iterations were not enough, or the body ran out of fuel itself. *)
Fixpoint for_stride {St : Type} (fuel : nat) (i limit stride : Z)
    (body : Z -> St -> option St) (s : St) : option St :=
  if i <? limit then
    match fuel with
    | O => None
    | S fuel' =>
        match body i s with
        | Some s' => for_stride fuel' (int_add i stride) limit stride body s'
        | None => None
        end
    end
  else Some s.

(** The body of the two inner loops of [Tile] at [(wx, wy)], for the tile
    whose origin is [(x, y)]. *)
Definition Tile_pixel `{Arch} (dst : loc) (watermark : Image)
    (srcBounds wmBounds : Rectangle) (opacity : float64) (x y : Z)
    (wy wx : Z) (h : heap) : heap :=
  let dx := int_add x wx in
  let dy := int_add y wy in
  if (dx >=? Dx srcBounds) || (dy >=? Dy srcBounds) then h
  else
    let srcColor := Image_At h (ImageRGBA dst) dx dy in
    let wmColor :=
      Image_At h watermark (int_add (X (Min wmBounds)) wx)
                           (int_add (Y (Min wmBounds)) wy) in
    let blended := blendColors srcColor wmColor opacity in
    dst_Set h dst dx dy blended.

(** One tile: the two inner loops over the watermark's pixels. *)
Definition Tile_one `{Arch} (dst : loc) (watermark : Image)
    (srcBounds wmBounds : Rectangle) (opacity : float64) (x y : Z)
    (h : heap) : heap :=
  foldl (fun h wy =>
    foldl (fun h wx =>
      Tile_pixel dst watermark srcBounds wmBounds opacity x y wy wx h)
      h (seqZ 0 (Dx wmBounds)))
    h (seqZ 0 (Dy wmBounds)).

(** The two outer loops of [Tile], over the tile origins. *)
Definition Tile_loops `{Arch} (fuel : nat) (dst : loc) (watermark : Image)
    (srcBounds wmBounds : Rectangle) (opacity : float64) (wmW wmH : Z)
    (h : heap) : option heap :=
  for_stride fuel 0 (Dy srcBounds) wmH (fun y h =>
    for_stride fuel 0 (Dx srcBounds) wmW (fun x h =>
      Some (Tile_one dst watermark srcBounds wmBounds opacity x y h)) h) h.

(** [Tile(src, watermark, opacity, spacing)] run on the heap [h] with
    [fuel] iterations allowed to each of the two outer loops. *)
Definition Tile `{Arch} (fuel : nat) (h : heap) (src watermark : Image)
    (opacity : float64) (spacing : Z) : outcome (loc * heap) :=
  match Image_Bounds h src, Image_Bounds h watermark with
  | Some srcBounds, Some wmBounds =>
      match NewRGBA srcBounds with
      | None => Panics
      | Some p =>
          let dst := fresh (dom h) in
          let h := <[dst := p]> h in
          let h := draw_Draw_Src h dst srcBounds src (Min srcBounds) in
          let wmW := int_add (Dx wmBounds) spacing in
          let wmH := int_add (Dy wmBounds) spacing in
          match Tile_loops fuel dst watermark srcBounds wmBounds opacity
                           wmW wmH h with
          | Some h => Returns (dst, h)
          | None => OutOfFuel
          end
      end
  | _, _ => Panics
  end.

(* ===================================================================== *)
(** * Notions the statements are written with *)
(* ===================================================================== *)

(** Every channel [RGBA()] returns lies on the 16-bit scale. *)
Definition chan16 (z : Z) : Prop := 0 <= z <= 65535.

(** The blend weight [float64(oa) / 65535.0 * opacity]. *)
Definition effective_alpha (overlay : Color) (opacity : float64) : float64 :=
  fmul (fdiv (of_Z (alpha16 overlay)) f65535) opacity.

(** [b*(1 - ea) + o*ea] in [float64], for channel values [b] and [o]. *)
Definition mix (b o : Z) (ea : float64) : float64 :=
  fadd (fmul (of_Z b) (fsub f1 ea)) (fmul (of_Z o) ea).

(** The four bytes of the pixel at offset [i]. *)
Definition read4 (i : nat) (pix : list byte) : RGBA :=
  mkRGBA (pix !!! i) (pix !!! (i + 1)%nat)
         (pix !!! (i + 2)%nat) (pix !!! (i + 3)%nat).

(** A buffer whose [Pix] has room for every pixel of its rectangle. *)
Definition wf_buf (p : RGBAImage) : Prop :=
  exists w hgt : Z,
    0 <= w /\ 0 <= hgt /\ Stride p = 4 * w /\
    Z.of_nat (length (Pix p)) = 4 * w * hgt /\
    forall x y : Z, Point_In (mkPoint x y) (Rect p) = true ->
      0 <= x - X (Min (Rect p)) < w /\ 0 <= y - Y (Min (Rect p)) < hgt.

(** A well-formed rectangle, in the sense of package [image]. *)
Definition well_formed (r : Rectangle) : Prop :=
  X (Min r) <= X (Max r) /\ Y (Min r) <= Y (Max r).

(** The renderers write to one cell of the heap, the buffer they allocate.
    The definitions of this section are their loops as functions of that
    buffer, the watermark read through a fixed [wmAt]; the lemmas after
    them show that the loops on the heap compute exactly these. *)

Section Buffer.
Context `{Arch}.
Variable wmAt : Z -> Z -> Color.
Variables srcBounds wmBounds : Rectangle.
Variable opacity : float64.

(** Read, blend, write back at [(dx, dy)], with the watermark's pixel
    [(wx, wy)]. *)
Definition composite (dx dy wx wy : Z) (b : RGBAImage) : RGBAImage :=
  RGBA_Set b dx dy
    (blendColors (ColorRGBA (RGBAAt b dx dy))
       (wmAt (int_add (X (Min wmBounds)) wx) (int_add (Y (Min wmBounds)) wy))
       opacity).

Definition Apply_pixel_buf (x y wy wx : Z) (b : RGBAImage) : RGBAImage :=
  let dx := int_add x wx in
  let dy := int_add y wy in
  if (dx <? 0) || (dx >=? Dx srcBounds) || (dy <? 0) || (dy >=? Dy srcBounds)
  then b
  else composite dx dy wx wy b.

Definition Apply_loops_buf (x y : Z) (b : RGBAImage) : RGBAImage :=
  foldl (fun b wy =>
    foldl (fun b wx => Apply_pixel_buf x y wy wx b) b (seqZ 0 (Dx wmBounds)))
    b (seqZ 0 (Dy wmBounds)).

Definition Tile_pixel_buf (x y wy wx : Z) (b : RGBAImage) : RGBAImage :=
  let dx := int_add x wx in
  let dy := int_add y wy in
  if (dx >=? Dx srcBounds) || (dy >=? Dy srcBounds) then b
  else composite dx dy wx wy b.

Definition Tile_one_buf (x y : Z) (b : RGBAImage) : RGBAImage :=
  foldl (fun b wy =>
    foldl (fun b wx => Tile_pixel_buf x y wy wx b) b (seqZ 0 (Dx wmBounds)))
    b (seqZ 0 (Dy wmBounds)).

Definition Tile_loops_buf (fuel : nat) (wmW wmH : Z) (b : RGBAImage)
  : option RGBAImage :=
  for_stride fuel 0 (Dy srcBounds) wmH (fun y b =>
    for_stride fuel 0 (Dx srcBounds) wmW (fun x b =>
      Some (Tile_one_buf x y b)) b) b.
End Buffer.

(** The copy [draw.Draw] makes, as a function of the buffer. *)
Definition draw_buf (srcAt : Z -> Z -> Color) (r : Rectangle) (sp : Point)
    (b : RGBAImage) : RGBAImage :=
  foldl (fun b y =>
    foldl (fun b x =>
      RGBA_Set b x y (srcAt (X sp + (x - X (Min r))) (Y sp + (y - Y (Min r)))))
      b (seqZ (X (Min r)) (Dx r)))
    b (seqZ (Y (Min r)) (Dy r)).

(** The heap [h0] with the buffer [b] at the address [dst]. *)
Definition with_dst (h0 : heap) (dst : loc) (b : RGBAImage) : heap :=
  <[dst := b]> h0.

(** The pairs [(y, x)] in the order two nested loops visit them. *)
Definition grid (ys xs : list Z) : list (Z * Z) :=
  ys ≫= (fun y => (fun x => (y, x)) <$> xs).

(** Setting the pixels [pts] (pairs [(y, x)]) to the colours [c y x]. *)
Definition fill (c : Z -> Z -> Color) (pts : list (Z * Z)) (b : RGBAImage)
  : RGBAImage :=
  foldl (fun b p => RGBA_Set b (snd p) (fst p) (c (fst p) (snd p))) b pts.

(** The buffer [Apply] and [Tile] start from: the copy of the source that
    [draw.Draw] makes in the fresh buffer [p]. *)
Definition canvas (srcAt : Z -> Z -> Color) (srcBounds : Rectangle)
    (p : RGBAImage) : RGBAImage :=
  draw_buf srcAt srcBounds (Min srcBounds) p.

(** The buffer [Apply] returns: the loops run on the canvas. *)
Definition Apply_result `{Arch} (h : heap) (src watermark : Image)
    (srcBounds wmBounds : Rectangle) (p : RGBAImage) (opts : Options)
  : RGBAImage :=
  Apply_loops_buf (Image_At h watermark) srcBounds wmBounds
    (normalizeOpacity (Opacity opts))
    (fst (placement srcBounds wmBounds opts))
    (snd (placement srcBounds wmBounds opts))
    (canvas (Image_At h src) srcBounds p).

(** The buffer [Tile] returns, when the fuel is enough. *)
Definition Tile_result `{Arch} (h : heap) (src watermark : Image)
    (srcBounds wmBounds : Rectangle) (p : RGBAImage) (fuel : nat)
    (opacity : float64) (spacing : Z) : option RGBAImage :=
  Tile_loops_buf (Image_At h watermark) srcBounds wmBounds opacity fuel
    (int_add (Dx wmBounds) spacing) (int_add (Dy wmBounds) spacing)
    (canvas (Image_At h src) srcBounds p).

(** Every pixel of the watermark's bounds is fully transparent. *)
Definition transparent (wmAt : Z -> Z -> Color) (wmBounds : Rectangle)
  : Prop :=
  forall x y, Point_In (mkPoint x y) wmBounds = true ->
    alpha16 (wmAt x y) = 0.

(** Where [Apply] sends the watermark's pixel [p = (wy, wx)] when the
    watermark's corner is at [(x, y)], and whether its bounds test lets the
    pixel through. *)
Definition Apply_dest (x y : Z) (p : Z * Z) : Z * Z :=
  (int_add x (snd p), int_add y (fst p)).

Definition Apply_visible (srcBounds : Rectangle) (x y : Z) (p : Z * Z)
  : bool :=
  negb ((fst (Apply_dest x y p) <? 0)
        || (fst (Apply_dest x y p) >=? Dx srcBounds)
        || (snd (Apply_dest x y p) <? 0)
        || (snd (Apply_dest x y p) >=? Dy srcBounds)).

(** The pixel [p] is composited onto the point [(qx, qy)]. *)
Definition Apply_hits (srcBounds : Rectangle) (x y qx qy : Z) (p : Z * Z)
  : Prop :=
  Apply_visible srcBounds x y p = true /\ Apply_dest x y p = (qx, qy).

(** One iteration of the inner loop of [Apply], at the pixel
    [p = (wy, wx)]. *)
Definition Apply_step `{Arch} (wmAt : Z -> Z -> Color)
    (srcBounds wmBounds : Rectangle) (opacity : float64) (x y : Z)
    (b : RGBAImage) (p : Z * Z) : RGBAImage :=
  Apply_pixel_buf wmAt srcBounds wmBounds opacity x y (fst p) (snd p) b.

(** The point [(qx, qy)] is the destination of a pixel of the watermark that
    passes the bounds test of [Apply]. *)
Definition covered (srcBounds wmBounds : Rectangle) (x y qx qy : Z) : bool :=
  (0 <=? qx - x) && (qx - x <? Dx wmBounds) &&
  (0 <=? qy - y) && (qy - y <? Dy wmBounds) &&
  (0 <=? qx) && (qx <? Dx srcBounds) && (0 <=? qy) && (qy <? Dy srcBounds).

(** The point [(qx, qy)] lies under the watermark placed at [(x, y)]. *)
Definition overlaps (wmBounds : Rectangle) (x y qx qy : Z) : bool :=
  (0 <=? qx - x) && (qx - x <? Dx wmBounds) &&
  (0 <=? qy - y) && (qy - y <? Dy wmBounds).

(** The fuel that is enough for [Tile] on a source of bounds [srcBounds],
    when the strides are positive. *)
Definition Tile_fuel (srcBounds : Rectangle) : nat :=
  Z.to_nat (Z.max (Dx srcBounds) (Dy srcBounds)).

(** [h'] is [h] with one buffer more, at [d]: [d] was free in [h], every
    cell of [h] is in [h'] as it was, and every image of [h] has the bounds
    and the pixels it had. *)
Definition extends_with (h : heap) (d : loc) (h' : heap) : Prop :=
  (d ∉ dom h) /\
  is_Some (h' !! d) /\
  (forall l, l <> d -> h' !! l = h !! l) /\
  (forall m r, Image_Bounds h m = Some r ->
     Image_Bounds h' m = Some r /\
     forall x y, Image_At h' m x y = Image_At h m x y).

(** The byte [c] is the float [f] converted by [uint8(f)], which is the
    integer part of [f] whenever that is a [uint8]. *)
Definition truncated (f : float64) `{Arch} (c : byte) : Prop :=
  c = float_to_uint8 f /\
  forall z, trunc f = Some z -> 0 <= z <= 255 -> u8z c = z.

Definition is_f0 (f : float64) : bool :=
  match f with
  | S754_zero false => true
  | _ => false
  end.

(** [P] holds of the [n] integers from [z] on. *)
Fixpoint all_from (n : nat) (z : Z) (P : Z -> bool) : bool :=
  match n with
  | O => true
  | S n' => P z && all_from n' (Z.succ z) P
  end.

(** The rectangle [image.Rect(x0, y0, x1, y1)]. *)
Definition rect (x0 y0 x1 y1 : Z) : Rectangle :=
  mkRect (mkPoint x0 y0) (mkPoint x1 y1).

Definition white : RGBA := mkRGBA xff xff xff xff.

Definition red : RGBA := mkRGBA xff x00 x00 xff.

Definition blue : RGBA := mkRGBA x00 x00 xff xff.

(** An image of one colour on the rectangle [r]. *)
Definition uniform (r : Rectangle) (c : RGBA) : Image :=
  ImageFn r (fun _ _ => ColorRGBA c).

(** The RGBA buffer on [r] whose pixels are [pixels], row by row. *)
Definition buffer (r : Rectangle) (pixels : list RGBA) : RGBAImage :=
  {| Pix := pixels ≫= (fun c => [R c; G c; B c; A c]);
     Stride := 4 * Dx r;
     Rect := r |}.

(** A heap with one 2x2 picture, at address [1]. *)
Definition picture : RGBAImage :=
  buffer (rect 0 0 2 2) [red; white; blue; mkRGBA x10 x20 x30 x80].

Definition heap1 : heap := {[ 1%positive := picture ]}.

(** Colours of the examples: an opaque black pixel of an RGBA buffer, and
    an opaque overlay pixel whose red is 344 on the 16-bit scale (high
    byte 1). *)
Definition black : Color := ColorRGBA (mkRGBA x00 x00 x00 xff).

Definition overlay344 : Color := ColorRGBA64 344 0 0 65535.

(** The literal [0.75]. *)
Definition f075 : float64 := binary_normalize prec emax 3 (-2) false.

(** The buffer [b'] has the rectangle and, pixel by pixel, the alpha of the
    buffer [b], and room for its pixels. *)
Definition same_alpha (b b' : RGBAImage) : Prop :=
  wf_buf b' /\ Rect b' = Rect b /\
  forall x y, A (RGBAAt b' x y) = A (RGBAAt b x y).

(** [opts] with another opacity. *)
Definition with_opacity (opts : Options) (opacity : float64) : Options :=
  {| OptPosition := OptPosition opts; Opacity := opacity;
     PaddingX := PaddingX opts; PaddingY := PaddingY opts |}.

(** The integer part of [f] is [z]. *)
Definition trunc_is (f : float64) (z : Z) : bool :=
  match trunc f with
  | Some z' => z' =? z
  | None => false
  end.

(** The point [(qx, qy)] lies under one of the tiles that [Tile] lays out
    with the strides [wmW] and [wmH], and inside its bounds test. *)
Definition tiled (srcBounds wmBounds : Rectangle) (wmW wmH qx qy : Z)
  : bool :=
  (0 <=? qx) && (qx <? Dx srcBounds) && (0 <=? qy) && (qy <? Dy srcBounds) &&
  (qx mod wmW <? Dx wmBounds) && (qy mod wmH <? Dy wmBounds).

(** The pixel [Tile] leaves at a point under a tile. *)
Definition tile_blend `{Arch} (wmAt : Z -> Z -> Color) (wmBounds : Rectangle)
    (opacity : float64) (wmW wmH : Z) (c : RGBA) (qx qy : Z) : RGBA :=
  rgbaModel
    (blendColors (ColorRGBA c)
       (wmAt (int_add (X (Min wmBounds)) (qx mod wmW))
             (int_add (Y (Min wmBounds)) (qy mod wmH)))
       opacity).

(** The buffer [s] is [b0] with the tiles composited on the points that
    satisfy [done]. *)
Definition tiles_done `{Arch} (wmAt : Z -> Z -> Color)
    (srcBounds wmBounds : Rectangle) (opacity : float64) (wmW wmH : Z)
    (b0 : RGBAImage) (done : Z -> Z -> bool) (s : RGBAImage) : Prop :=
  wf_buf s /\ Rect s = Rect b0 /\
  forall qx qy, Point_In (mkPoint qx qy) (Rect b0) = true ->
    RGBAAt s qx qy =
    if tiled srcBounds wmBounds wmW wmH qx qy && done qx qy
    then tile_blend wmAt wmBounds opacity wmW wmH (RGBAAt b0 qx qy) qx qy
    else RGBAAt b0 qx qy.

(** The point [(qx, qy)] lies in the box of the watermark's size whose
    bottom-right corner is [padX] and [padY] pixels from the bottom-right
    corner of the source. *)
Definition bottom_right_box (srcBounds wmBounds : Rectangle)
    (padX padY qx qy : Z) : bool :=
  (Dx srcBounds - Dx wmBounds - padX <=? qx) && (qx <? Dx srcBounds - padX) &&
  (Dy srcBounds - Dy wmBounds - padY <=? qy) && (qy <? Dy srcBounds - padY).

(* ===================================================================== *)
(** * [ApplyFromFiles], [SaveJPEG], [SavePNG] *)
(* ===================================================================== *)

(** The three functions call the packages [os], [image], [image/jpeg] and
    [image/png]. Those are not part of the program: the functions are
    modelled over any behaviour of these calls. For [ApplyFromFiles] the
    calls are logged, each with what it returned, and what a call returns
    may depend on the calls made before it. *)

Definition outcome_map {T U : Type} (f : T -> U) (o : outcome T)
  : outcome U :=
  match o with
  | Returns v => Returns (f v)
  | Panics => Panics
  | OutOfFuel => OutOfFuel
  end.

Section Files.
Context `{Arch}.

(** Go's [error] values and [*os.File] handles. *)
Variables error File : Type.

Inductive call : Type :=
| os_Open (name : String.string) (r : error + File)
| image_Decode (f : File) (r : error + Image)
| File_Close (f : File).

(** What [os.Open] and [image.Decode] return after the calls of the log.
    The images a decoder returns are images of the heap the function runs
    on. *)
Variable open_file : list call -> String.string -> error + File.
Variable decode : list call -> File -> error + Image.

(** [ApplyFromFiles(srcPath, watermarkPath, opts)]: what it returns, an
    error or the image of [Apply], and the log it leaves. A deferred
    [Close] runs when the function is left, by [return] or by a panic of
    [Apply]. *)
Definition ApplyFromFiles (h : heap) (srcPath watermarkPath : String.string)
    (opts : Options) (log : list call)
  : outcome (error + loc * heap) * list call :=
  let r := open_file log srcPath in
  let log := log ++ [os_Open srcPath r] in
  match r with
  | inl err => (Returns (inl err), log)
  | inr srcFile =>
      (* defer srcFile.Close() *)
      let '(res, log) :=
        let r := decode log srcFile in
        let log := log ++ [image_Decode srcFile r] in
        match r with
        | inl err => (Returns (inl err), log)
        | inr src =>
            let r := open_file log watermarkPath in
            let log := log ++ [os_Open watermarkPath r] in
            match r with
            | inl err => (Returns (inl err), log)
            | inr wmFile =>
                (* defer wmFile.Close() *)
                let '(res, log) :=
                  let r := decode log wmFile in
                  let log := log ++ [image_Decode wmFile r] in
                  match r with
                  | inl err => (Returns (inl err), log)
                  | inr wm => (outcome_map inr (Apply h src wm opts), log)
                  end in
                (res, log ++ [File_Close wmFile])
            end
        end in
      (res, log ++ [File_Close srcFile])
  end.

(** The file a call opened, the file it closed, and the error it
    returned. *)
Definition opened (c : call) : option File :=
  match c with
  | os_Open _ (inr f) => Some f
  | _ => None
  end.

Definition closed (c : call) : option File :=
  match c with
  | File_Close f => Some f
  | _ => None
  end.

Definition failure (c : call) : option error :=
  match c with
  | os_Open _ (inl err) | image_Decode _ (inl err) => Some err
  | _ => None
  end.

(** The images its calls decoded. *)
Definition decoded (c : call) : option Image :=
  match c with
  | image_Decode _ (inr m) => Some m
  | _ => None
  end.

(** [SaveJPEG(img, w, quality)] and [SavePNG(img, w)], over any encoder:
    both return what the encoder returns. *)
Variables Writer Result : Type.
Variable jpeg_Encode : Writer -> Image -> Z -> Result.
Variable png_Encode : Writer -> Image -> Result.

Definition SaveJPEG (img : Image) (w : Writer) (quality : Z) : Result :=
  let quality :=
    if (quality <=? 0) || (quality >? 100) then 85 else quality in
  jpeg_Encode w img quality.

Definition SavePNG (img : Image) (w : Writer) : Result :=
  png_Encode w img.
End Files.

Arguments os_Open {error File} name r.
Arguments image_Decode {error File} f r.
Arguments File_Close {error File} f.
Arguments opened {error File} c.
Arguments closed {error File} c.
Arguments failure {error File} c.
Arguments decoded {error File} c.

(* ===================================================================== *)
(** * Facts about integers, bytes and colours *)
(* ===================================================================== *)

Lemma int_wrap_id (z : Z) : is_int z -> int_wrap z = z.
Proof.
  unfold is_int, minInt, maxInt, int_wrap. intros Hz.
  rewrite Z.mod_small; lia.
Qed.

Lemma int_wrap_is_int (z : Z) : is_int (int_wrap z).
Proof.
  unfold is_int, minInt, maxInt, int_wrap.
  pose proof (Z.mod_pos_bound (z + 2 ^ 63) (2 ^ 64) ltac:(lia)). lia.
Qed.

Lemma u8z_range (b : byte) : 0 <= u8z b <= 255.
Proof.
  unfold u8z. pose proof (Byte.to_N_bounded b). lia.
Qed.

Lemma uint8_u8z (b : byte) : uint8 (u8z b) = b.
Proof.
  unfold uint8. pose proof (u8z_range b).
  rewrite Z.mod_small by lia. unfold u8z.
  rewrite N2Z.id, Byte.of_to_N. reflexivity.
Qed.

Lemma u8z_uint8 (z : Z) : u8z (uint8 z) = z mod 256.
Proof.
  unfold uint8, u8z.
  pose proof (Z.mod_pos_bound z 256 ltac:(lia)) as Hm.
  destruct (Byte.of_N (Z.to_N (z mod 256))) as [b|] eqn:E.
  - apply Byte.to_of_N in E. rewrite E. lia.
  - apply Byte.of_N_None_iff in E. lia.
Qed.

Lemma spread_257 (b : byte) : spread b = 257 * u8z b.
Proof. destruct b; reflexivity. Qed.

Lemma spread_shiftr (b : byte) : Z.shiftr (spread b) 8 = u8z b.
Proof. destruct b; reflexivity. Qed.

Lemma chan16_spread (b : byte) : chan16 (spread b).
Proof.
  unfold chan16. rewrite spread_257. pose proof (u8z_range b). lia.
Qed.

Lemma chan16_nrgba (c a : byte) : chan16 (spread c * u8z a / 255).
Proof.
  unfold chan16. rewrite spread_257.
  pose proof (u8z_range c). pose proof (u8z_range a).
  split.
  - apply Z.div_pos; nia.
  - apply Z.div_le_upper_bound; nia.
Qed.

Lemma chan16_mod (z : Z) : chan16 (z mod 65536).
Proof.
  unfold chan16. pose proof (Z.mod_pos_bound z 65536 ltac:(lia)). lia.
Qed.

Lemma Color_RGBA_range (c : Color) :
  chan16 (red16 c) /\ chan16 (green16 c) /\ chan16 (blue16 c) /\
  chan16 (alpha16 c).
Proof.
  destruct c as [c | r g b a | r g b a | y];
    unfold red16, green16, blue16, alpha16; cbn [Color_RGBA];
    repeat split;
    first [ apply chan16_spread | apply chan16_nrgba | apply chan16_mod
          | unfold chan16; lia ].
Qed.

Lemma Color_RGBA_eta (c : Color) :
  Color_RGBA c = (red16 c, green16 c, blue16 c, alpha16 c).
Proof.
  unfold red16, green16, blue16, alpha16.
  destruct (Color_RGBA c) as [[[r g] b] a]. reflexivity.
Qed.

(** What [Set] stores for a colour: the high byte of each 16-bit channel. *)
Lemma rgbaModel_high_bytes (c : Color) :
  rgbaModel c =
  mkRGBA (uint8 (Z.shiftr (red16 c) 8)) (uint8 (Z.shiftr (green16 c) 8))
         (uint8 (Z.shiftr (blue16 c) 8)) (uint8 (Z.shiftr (alpha16 c) 8)).
Proof.
  destruct c as [[r g b a] | r g b a | r g b a | y];
    unfold red16, green16, blue16, alpha16; cbn [rgbaModel Color_RGBA R G B A];
    try reflexivity.
  rewrite !spread_shiftr, !uint8_u8z. reflexivity.
Qed.

Lemma rgbaModel_ColorRGBA (c : RGBA) : rgbaModel (ColorRGBA c) = c.
Proof. reflexivity. Qed.

Lemma float_to_uint8_trunc `{Arch} (f : float64) (z : Z) :
  trunc f = Some z -> 0 <= z <= 255 -> u8z (float_to_uint8 f) = z.
Proof.
  intros Ht Hz. unfold float_to_uint8. rewrite Ht.
  replace ((0 <=? z) && (z <=? 255)) with true
    by (symmetry; apply andb_true_iff; split; apply Z.leb_le; lia).
  rewrite u8z_uint8. apply Z.mod_small. lia.
Qed.

(* ===================================================================== *)
(** * The compositor *)
(* ===================================================================== *)

Lemma blendChannel_mix `{Arch} (b o : Z) (ea : float64) :
  blendChannel b o ea = float_to_uint8 (mix (b / 256) (o / 256) ea).
Proof.
  unfold blendChannel, mix. rewrite !Z.shiftr_div_pow2 by lia. reflexivity.
Qed.

Lemma blendColors_transparent `{Arch} (base overlay : Color)
    (opacity : float64) :
  alpha16 overlay = 0 -> blendColors base overlay opacity = base.
Proof.
  intros Ha. unfold blendColors.
  rewrite (Color_RGBA_eta base), (Color_RGBA_eta overlay), Ha.
  reflexivity.
Qed.

Lemma blendColors_visible `{Arch} (base overlay : Color) (opacity : float64) :
  alpha16 overlay <> 0 ->
  blendColors base overlay opacity =
  ColorRGBA
    (mkRGBA
       (blendChannel (red16 base) (red16 overlay)
          (effective_alpha overlay opacity))
       (blendChannel (green16 base) (green16 overlay)
          (effective_alpha overlay opacity))
       (blendChannel (blue16 base) (blue16 overlay)
          (effective_alpha overlay opacity))
       (uint8 (Z.shiftr (alpha16 base) 8))).
Proof.
  intros Ha. unfold blendColors.
  rewrite (Color_RGBA_eta base), (Color_RGBA_eta overlay).
  apply Z.eqb_neq in Ha. rewrite Ha. reflexivity.
Qed.

(* ===================================================================== *)
(** * RGBA buffers: reading after writing *)
(* ===================================================================== *)

Lemma length_write4 (i : nat) (c : RGBA) (pix : list byte) :
  length (write4 i c pix) = length pix.
Proof. unfold write4. rewrite !length_insert. reflexivity. Qed.

Lemma read4_write4_same (i : nat) (c : RGBA) (pix : list byte) :
  (i + 3 < length pix)%nat -> read4 i (write4 i c pix) = c.
Proof.
  intros Hi. destruct c as [r g b a]. unfold read4, write4; cbn [R G B A].
  f_equal.
  - rewrite !list_lookup_total_insert_ne by lia.
    apply list_lookup_total_insert_eq. lia.
  - rewrite !list_lookup_total_insert_ne by lia.
    apply list_lookup_total_insert_eq. rewrite length_insert. lia.
  - rewrite !list_lookup_total_insert_ne by lia.
    apply list_lookup_total_insert_eq. rewrite !length_insert. lia.
  - apply list_lookup_total_insert_eq. rewrite !length_insert. lia.
Qed.

Lemma read4_write4_other (i j : nat) (c : RGBA) (pix : list byte) :
  (i + 4 <= j \/ j + 4 <= i)%nat -> read4 j (write4 i c pix) = read4 j pix.
Proof.
  intros Hij. unfold read4, write4.
  rewrite !list_lookup_total_insert_ne by lia. reflexivity.
Qed.

Lemma write4_read4 (i : nat) (pix : list byte) :
  write4 i (read4 i pix) pix = pix.
Proof.
  unfold write4, read4; cbn [R G B A].
  assert (Hid : forall (k : nat) (l : list byte), <[k := l !!! k]> l = l).
  { intros k l. apply list_insert_id'. intros Hk.
    apply list_lookup_lookup_total_lt. exact Hk. }
  rewrite (Hid i).
  rewrite (Hid (i + 1)%nat), (Hid (i + 2)%nat), (Hid (i + 3)%nat).
  reflexivity.
Qed.

Lemma Point_In_spec (x y : Z) (r : Rectangle) :
  Point_In (mkPoint x y) r = true <->
  X (Min r) <= x < X (Max r) /\ Y (Min r) <= y < Y (Max r).
Proof.
  unfold Point_In; cbn [X Y].
  rewrite !andb_true_iff, !Z.leb_le, !Z.ltb_lt. lia.
Qed.

Lemma int_wrap_cases (z : Z) :
  exists k : Z, int_wrap z = z - 2 ^ 64 * k /\ is_int (int_wrap z).
Proof.
  exists ((z + 2 ^ 63) / 2 ^ 64). split; [|apply int_wrap_is_int].
  unfold int_wrap.
  pose proof (Z.div_mod (z + 2 ^ 63) (2 ^ 64) ltac:(lia)). lia.
Qed.

(** On a rectangle of [int]s with a point inside, [Dx] and [Dy] are the
    exact differences as soon as they are not negative. *)
Lemma Dx_exact (r : Rectangle) (x : Z) :
  int_rect r -> X (Min r) <= x < X (Max r) -> 0 <= Dx r ->
  Dx r = X (Max r) - X (Min r).
Proof.
  unfold int_rect, is_int, minInt, maxInt, Dx, int_sub.
  intros (H1 & H2 & H3 & H4) Hx Hd.
  destruct (int_wrap_cases (X (Max r) - X (Min r))) as (k & E & I).
  unfold is_int, minInt, maxInt in I. lia.
Qed.

Lemma Dy_exact (r : Rectangle) (y : Z) :
  int_rect r -> Y (Min r) <= y < Y (Max r) -> 0 <= Dy r ->
  Dy r = Y (Max r) - Y (Min r).
Proof.
  unfold int_rect, is_int, minInt, maxInt, Dy, int_sub.
  intros (H1 & H2 & H3 & H4) Hy Hd.
  destruct (int_wrap_cases (Y (Max r) - Y (Min r))) as (k & E & I).
  unfold is_int, minInt, maxInt in I. lia.
Qed.

Lemma NewRGBA_Some (r : Rectangle) (p : RGBAImage) :
  NewRGBA r = Some p ->
  0 <= Dx r /\ 0 <= Dy r /\ 4 * Dx r * Dy r <= maxInt /\
  p = {| Pix := replicate (Z.to_nat (4 * Dx r * Dy r)) x00;
         Stride := 4 * Dx r; Rect := r |}.
Proof.
  unfold NewRGBA. intros E.
  destruct ((Dx r <? 0) || (Dy r <? 0) || (maxInt <? 4 * Dx r * Dy r))
    eqn:Hc; [discriminate|].
  apply orb_false_iff in Hc as [Hc H3]. apply orb_false_iff in Hc as [H1 H2].
  apply Z.ltb_ge in H1, H2, H3. inversion E. auto.
Qed.

Lemma NewRGBA_Rect (r : Rectangle) (p : RGBAImage) :
  NewRGBA r = Some p -> Rect p = r.
Proof.
  intros E. apply NewRGBA_Some in E as (_ & _ & _ & ->). reflexivity.
Qed.

Lemma NewRGBA_wf (r : Rectangle) (p : RGBAImage) :
  int_rect r -> NewRGBA r = Some p -> wf_buf p.
Proof.
  intros Hr E. apply NewRGBA_Some in E as (Hw & Hh & _ & ->).
  exists (Dx r), (Dy r). cbn [Pix Stride Rect].
  repeat split; try assumption.
  - rewrite length_replicate. nia.
  - apply Point_In_spec in H. lia.
  - apply Point_In_spec in H. rewrite (Dx_exact r x); try assumption; lia.
  - apply Point_In_spec in H. lia.
  - apply Point_In_spec in H. rewrite (Dy_exact r y); try assumption; lia.
Qed.

(** The offset of a pixel inside the rectangle, and the room after it. *)
Lemma PixOffset_room (p : RGBAImage) (x y : Z) :
  wf_buf p -> Point_In (mkPoint x y) (Rect p) = true ->
  0 <= PixOffset p x y /\
  (Z.to_nat (PixOffset p x y) + 3 < length (Pix p))%nat.
Proof.
  intros (w & hgt & Hw & Hh & Hs & Hl & Hin) Hp.
  destruct (Hin x y Hp) as [Hx Hy]. unfold PixOffset. rewrite Hs.
  assert (0 <= (y - Y (Min (Rect p))) * (4 * w) + (x - X (Min (Rect p))) * 4)
    by nia.
  split; [assumption|].
  assert ((y - Y (Min (Rect p))) * (4 * w) + (x - X (Min (Rect p))) * 4 + 3
          < 4 * w * hgt) by nia.
  lia.
Qed.

(** Two different pixels of the rectangle lie four bytes apart at least. *)
Lemma PixOffset_apart (p : RGBAImage) (x y x' y' : Z) :
  wf_buf p ->
  Point_In (mkPoint x y) (Rect p) = true ->
  Point_In (mkPoint x' y') (Rect p) = true ->
  (x, y) <> (x', y') ->
  (Z.to_nat (PixOffset p x y) + 4 <= Z.to_nat (PixOffset p x' y') \/
   Z.to_nat (PixOffset p x' y') + 4 <= Z.to_nat (PixOffset p x y))%nat.
Proof.
  intros Hwf Hp Hp' Hne.
  destruct (PixOffset_room p x y Hwf Hp) as [H0 _].
  destruct (PixOffset_room p x' y' Hwf Hp') as [H0' _].
  destruct Hwf as (w & hgt & Hw & Hh & Hs & Hl & Hin).
  destruct (Hin x y Hp) as [Hx Hy]. destruct (Hin x' y' Hp') as [Hx' Hy'].
  unfold PixOffset in *. rewrite Hs in *.
  assert (y = y' /\ x <> x' \/ y < y' \/ y' < y) as [[<- Hxx] | [Hlt | Hlt]].
  { destruct (Z.eq_dec y y') as [<-|]; [left|right; lia].
    split; [reflexivity|]. intros <-. apply Hne. reflexivity. }
  - lia.
  - left. nia.
  - right. nia.
Qed.

Lemma Rect_RGBA_Set (p : RGBAImage) (x y : Z) (c : Color) :
  Rect (RGBA_Set p x y c) = Rect p.
Proof. unfold RGBA_Set. destruct (Point_In _ _); reflexivity. Qed.

Lemma RGBA_Set_wf (p : RGBAImage) (x y : Z) (c : Color) :
  wf_buf p -> wf_buf (RGBA_Set p x y c).
Proof.
  intros Hwf. unfold RGBA_Set. destruct (Point_In _ _); [|assumption].
  destruct Hwf as (w & hgt & Hw & Hh & Hs & Hl & Hin).
  exists w, hgt. cbn [Pix Stride Rect]. rewrite length_write4. auto.
Qed.

Lemma RGBAAt_read4 (p : RGBAImage) (x y : Z) :
  Point_In (mkPoint x y) (Rect p) = true ->
  RGBAAt p x y = read4 (Z.to_nat (PixOffset p x y)) (Pix p).
Proof. intros Hp. unfold RGBAAt. rewrite Hp. reflexivity. Qed.

Lemma RGBAAt_outside (p : RGBAImage) (x y : Z) :
  Point_In (mkPoint x y) (Rect p) = false -> RGBAAt p x y = zeroRGBA.
Proof. intros Hp. unfold RGBAAt. rewrite Hp. reflexivity. Qed.

Lemma RGBA_Set_outside (p : RGBAImage) (x y : Z) (c : Color) :
  Point_In (mkPoint x y) (Rect p) = false -> RGBA_Set p x y c = p.
Proof. intros Hp. unfold RGBA_Set. rewrite Hp. reflexivity. Qed.

(** A pixel just set reads back as the colour [Set] stored. *)
Lemma RGBAAt_Set_same (p : RGBAImage) (x y : Z) (c : Color) :
  wf_buf p -> Point_In (mkPoint x y) (Rect p) = true ->
  RGBAAt (RGBA_Set p x y c) x y = rgbaModel c.
Proof.
  intros Hwf Hp. destruct (PixOffset_room p x y Hwf Hp) as [_ Hroom].
  rewrite RGBAAt_read4 by (rewrite Rect_RGBA_Set; exact Hp).
  unfold RGBA_Set. rewrite Hp. unfold PixOffset; cbn [Pix Stride Rect].
  apply read4_write4_same. exact Hroom.
Qed.

(** [Set] leaves every other pixel as it was. *)
Lemma RGBAAt_Set_other (p : RGBAImage) (x y x' y' : Z) (c : Color) :
  wf_buf p -> (x, y) <> (x', y') ->
  RGBAAt (RGBA_Set p x y c) x' y' = RGBAAt p x' y'.
Proof.
  intros Hwf Hne.
  destruct (Point_In (mkPoint x y) (Rect p)) eqn:Hp;
    [|rewrite RGBA_Set_outside by exact Hp; reflexivity].
  destruct (Point_In (mkPoint x' y') (Rect p)) eqn:Hp'.
  - rewrite !RGBAAt_read4 by (rewrite ?Rect_RGBA_Set; exact Hp').
    unfold RGBA_Set. rewrite Hp. unfold PixOffset; cbn [Pix Stride Rect].
    apply read4_write4_other.
    exact (PixOffset_apart p x y x' y' Hwf Hp Hp' Hne).
  - rewrite !RGBAAt_outside by (rewrite ?Rect_RGBA_Set; exact Hp').
    reflexivity.
Qed.

(** Writing back the colour just read changes nothing. *)
Lemma RGBA_Set_At (p : RGBAImage) (x y : Z) :
  RGBA_Set p x y (ColorRGBA (RGBAAt p x y)) = p.
Proof.
  unfold RGBA_Set, RGBAAt. destruct (Point_In _ _); [|reflexivity].
  rewrite rgbaModel_ColorRGBA.
  change (mkRGBA _ _ _ _) with (read4 (Z.to_nat (PixOffset p x y)) (Pix p)).
  rewrite write4_read4. destruct p; reflexivity.
Qed.

(* ===================================================================== *)
(** * The loops seen from the destination buffer *)
(* ===================================================================== *)

Section Simulation.
Context `{Arch}.
Variable h0 : heap.
Variable dst : loc.

Local Abbreviation wd := (with_dst h0 dst).

Lemma dst_Set_with_dst (b : RGBAImage) (x y : Z) (c : Color) :
  dst_Set (wd b) dst x y c = wd (RGBA_Set b x y c).
Proof.
  unfold dst_Set, with_dst.
  exact (alter_insert_eq h0 dst (fun p => RGBA_Set p x y c) b).
Qed.

Lemma Image_At_with_dst (b : RGBAImage) (x y : Z) :
  Image_At (wd b) (ImageRGBA dst) x y = ColorRGBA (RGBAAt b x y).
Proof.
  unfold Image_At, with_dst. rewrite lookup_insert_eq. reflexivity.
Qed.

(** An image of the heap [h0] reads the same after the cell [dst], which
    [h0] does not have, is added or changed. *)
Lemma Image_At_frame (m : Image) (r : Rectangle) (b : RGBAImage) (x y : Z) :
  dst ∉ dom h0 -> Image_Bounds h0 m = Some r ->
  Image_At (wd b) m x y = Image_At h0 m x y.
Proof.
  intros Hd Hm. destruct m as [l | bounds f]; [|reflexivity].
  cbn [Image_At Image_Bounds] in *. unfold with_dst.
  rewrite lookup_insert_ne; [reflexivity|].
  intros <-. apply Hd. apply elem_of_dom.
  destruct (h0 !! dst); [eauto | discriminate].
Qed.

Lemma foldl_with_dst {I : Type} (f : heap -> I -> heap)
    (g : RGBAImage -> I -> RGBAImage) (l : list I) :
  (forall b i, f (wd b) i = wd (g b i)) ->
  forall b, foldl f (wd b) l = wd (foldl g b l).
Proof.
  intros Hfg. induction l as [|i l IH]; intros b; cbn [foldl].
  - reflexivity.
  - rewrite Hfg. apply IH.
Qed.

Lemma for_stride_with_dst (f : Z -> heap -> option heap)
    (g : Z -> RGBAImage -> option RGBAImage) (limit stride : Z) :
  (forall i b, f i (wd b) = wd <$> g i b) ->
  forall fuel i b,
    for_stride fuel i limit stride f (wd b) =
    wd <$> for_stride fuel i limit stride g b.
Proof.
  intros Hfg. induction fuel as [|fuel IH]; intros i b; cbn [for_stride].
  - destruct (i <? limit); reflexivity.
  - destruct (i <? limit); [|reflexivity].
    rewrite Hfg. destruct (g i b) as [b'|]; cbn [fmap option_fmap option_map].
    + apply IH.
    + reflexivity.
Qed.

Variable watermark : Image.
Variables srcBounds wmBounds : Rectangle.
Hypothesis dst_fresh : dst ∉ dom h0.
Hypothesis wm_bounds : Image_Bounds h0 watermark = Some wmBounds.

Lemma Apply_pixel_with_dst (x y : Z) (opacity : float64) (wy wx : Z)
    (b : RGBAImage) :
  Apply_pixel dst watermark srcBounds wmBounds x y opacity wy wx (wd b)
  = wd
      (Apply_pixel_buf (Image_At h0 watermark) srcBounds wmBounds opacity
         x y wy wx b).
Proof.
  unfold Apply_pixel, Apply_pixel_buf, composite.
  destruct (_ || _); [reflexivity|].
  rewrite Image_At_with_dst, (Image_At_frame watermark wmBounds) by assumption.
  apply dst_Set_with_dst.
Qed.

Lemma Apply_loops_with_dst (x y : Z) (opacity : float64) (b : RGBAImage) :
  Apply_loops dst watermark srcBounds wmBounds x y opacity (wd b)
  = wd
      (Apply_loops_buf (Image_At h0 watermark) srcBounds wmBounds opacity
         x y b).
Proof.
  unfold Apply_loops, Apply_loops_buf.
  apply foldl_with_dst. intros b' wy.
  apply foldl_with_dst. intros b'' wx.
  apply Apply_pixel_with_dst.
Qed.

Lemma Tile_pixel_with_dst (opacity : float64) (x y wy wx : Z)
    (b : RGBAImage) :
  Tile_pixel dst watermark srcBounds wmBounds opacity x y wy wx (wd b)
  = wd
      (Tile_pixel_buf (Image_At h0 watermark) srcBounds wmBounds opacity
         x y wy wx b).
Proof.
  unfold Tile_pixel, Tile_pixel_buf, composite.
  destruct (_ || _); [reflexivity|].
  rewrite Image_At_with_dst, (Image_At_frame watermark wmBounds) by assumption.
  apply dst_Set_with_dst.
Qed.

Lemma Tile_one_with_dst (opacity : float64) (x y : Z) (b : RGBAImage) :
  Tile_one dst watermark srcBounds wmBounds opacity x y (wd b)
  = wd
      (Tile_one_buf (Image_At h0 watermark) srcBounds wmBounds opacity
         x y b).
Proof.
  unfold Tile_one, Tile_one_buf.
  apply foldl_with_dst. intros b' wy.
  apply foldl_with_dst. intros b'' wx.
  apply Tile_pixel_with_dst.
Qed.

Lemma Tile_loops_with_dst (fuel : nat) (opacity : float64) (wmW wmH : Z)
    (b : RGBAImage) :
  Tile_loops fuel dst watermark srcBounds wmBounds opacity wmW wmH
    (wd b)
  = wd
      <$> Tile_loops_buf (Image_At h0 watermark) srcBounds wmBounds opacity
            fuel wmW wmH b.
Proof.
  unfold Tile_loops, Tile_loops_buf.
  apply for_stride_with_dst. intros y b'.
  apply for_stride_with_dst. intros x b''.
  cbn [fmap option_fmap option_map]. f_equal. apply Tile_one_with_dst.
Qed.

Lemma draw_Draw_Src_with_dst (src : Image) (r : Rectangle) (sp : Point)
    (b : RGBAImage) :
  Image_Bounds h0 src = Some r ->
  draw_Draw_Src (wd b) dst r src sp
  = wd (draw_buf (Image_At h0 src) r sp b).
Proof.
  intros Hsrc. unfold draw_Draw_Src, draw_buf.
  apply foldl_with_dst. intros b' y.
  apply foldl_with_dst. intros b'' x.
  rewrite (Image_At_frame src r) by assumption.
  apply dst_Set_with_dst.
Qed.
End Simulation.

(* ===================================================================== *)
(** * Nested counting loops as one loop over a grid *)
(* ===================================================================== *)

Lemma foldl_grid {St : Type} (f : St -> Z -> Z -> St) (ys xs : list Z) :
  forall s : St,
    foldl (fun s y => foldl (fun s x => f s y x) s xs) s ys =
    foldl (fun s p => f s (fst p) (snd p)) s (grid ys xs).
Proof.
  induction ys as [|y ys IH]; intros s; [reflexivity|].
  unfold grid. rewrite bind_cons, foldl_app, foldl_fmap. cbn [foldl fst snd].
  apply IH.
Qed.

Lemma elem_of_grid (ys xs : list Z) (y x : Z) :
  (y, x) ∈ grid ys xs <-> y ∈ ys /\ x ∈ xs.
Proof.
  unfold grid. rewrite list_elem_of_bind. split.
  - intros (y' & Hp & Hy). apply list_elem_of_fmap in Hp as (x' & E & Hx).
    inversion E; subst. auto.
  - intros [Hy Hx]. exists y. split; [|exact Hy].
    apply list_elem_of_fmap. exists x. auto.
Qed.

Lemma foldl_fixed {St I : Type} (f : St -> I -> St) (l : list I) (s : St) :
  (forall i, i ∈ l -> f s i = s) -> foldl f s l = s.
Proof.
  induction l as [|i l IH]; intros Hf; cbn [foldl]; [reflexivity|].
  rewrite Hf by (apply elem_of_cons; auto).
  apply IH. intros j Hj. apply Hf. apply elem_of_cons. auto.
Qed.

Lemma foldl_invariant {St I : Type} (P : St -> Prop) (f : St -> I -> St)
    (l : list I) :
  (forall s i, i ∈ l -> P s -> P (f s i)) ->
  forall s, P s -> P (foldl f s l).
Proof.
  induction l as [|i l IH]; intros Hf s Hs; cbn [foldl]; [exact Hs|].
  apply IH.
  - intros s' j Hj. apply Hf. apply elem_of_cons. auto.
  - apply Hf; [apply elem_of_cons; auto | exact Hs].
Qed.

(* ===================================================================== *)
(** * The canvas: what [draw.Draw] leaves in the new buffer *)
(* ===================================================================== *)

Lemma fill_Rect (c : Z -> Z -> Color) (pts : list (Z * Z)) (b : RGBAImage) :
  Rect (fill c pts b) = Rect b.
Proof.
  unfold fill.
  apply (foldl_invariant (fun b' => Rect b' = Rect b)); [|reflexivity].
  intros b' p _ E. rewrite Rect_RGBA_Set. exact E.
Qed.

Lemma fill_wf (c : Z -> Z -> Color) (pts : list (Z * Z)) (b : RGBAImage) :
  wf_buf b -> wf_buf (fill c pts b).
Proof.
  unfold fill. apply (foldl_invariant wf_buf).
  intros b' p _. apply RGBA_Set_wf.
Qed.

Lemma fill_At_miss (c : Z -> Z -> Color) (pts : list (Z * Z)) (x y : Z) :
  forall b, wf_buf b -> (y, x) ∉ pts ->
    RGBAAt (fill c pts b) x y = RGBAAt b x y.
Proof.
  induction pts as [|[y' x'] pts IH]; intros b Hwf Hn; [reflexivity|].
  apply not_elem_of_cons in Hn as [Hne Hn].
  unfold fill; cbn [foldl fst snd].
  fold (fill c pts (RGBA_Set b x' y' (c y' x'))).
  rewrite IH by (try apply RGBA_Set_wf; assumption).
  apply RGBAAt_Set_other; [assumption|].
  intros E. apply Hne. inversion E. reflexivity.
Qed.

Lemma fill_At_hit (c : Z -> Z -> Color) (pts : list (Z * Z)) (x y : Z) :
  forall b, wf_buf b -> (y, x) ∈ pts ->
    Point_In (mkPoint x y) (Rect b) = true ->
    RGBAAt (fill c pts b) x y = rgbaModel (c y x).
Proof.
  induction pts as [|[y' x'] pts IH]; intros b Hwf Hin Hp.
  - apply elem_of_nil in Hin. contradiction.
  - unfold fill; cbn [foldl fst snd].
    fold (fill c pts (RGBA_Set b x' y' (c y' x'))).
    destruct (decide ((y, x) ∈ pts)) as [Hm | Hm].
    + apply IH; [apply RGBA_Set_wf; assumption | assumption |].
      rewrite Rect_RGBA_Set. exact Hp.
    + apply elem_of_cons in Hin as [E | Hin]; [|contradiction].
      inversion E; subst y' x'.
      rewrite fill_At_miss by (try apply RGBA_Set_wf; assumption).
      apply RGBAAt_Set_same; assumption.
Qed.

Lemma draw_buf_fill (srcAt : Z -> Z -> Color) (r : Rectangle) (sp : Point)
    (b : RGBAImage) :
  draw_buf srcAt r sp b =
  fill (fun y x => srcAt (X sp + (x - X (Min r))) (Y sp + (y - Y (Min r))))
       (grid (seqZ (Y (Min r)) (Dy r)) (seqZ (X (Min r)) (Dx r))) b.
Proof.
  unfold draw_buf, fill.
  exact (foldl_grid
           (fun b y x =>
              RGBA_Set b x y
                (srcAt (X sp + (x - X (Min r))) (Y sp + (y - Y (Min r)))))
           _ _ b).
Qed.

Section Canvas.
Variable srcAt : Z -> Z -> Color.
Variable srcBounds : Rectangle.
Variable p : RGBAImage.
Hypothesis bounds_int : int_rect srcBounds.
Hypothesis alloc : NewRGBA srcBounds = Some p.

Lemma canvas_Rect : Rect (canvas srcAt srcBounds p) = srcBounds.
Proof.
  unfold canvas. rewrite draw_buf_fill, fill_Rect.
  apply NewRGBA_Rect. exact alloc.
Qed.

Lemma canvas_wf : wf_buf (canvas srcAt srcBounds p).
Proof.
  unfold canvas. rewrite draw_buf_fill. apply fill_wf.
  apply (NewRGBA_wf srcBounds); assumption.
Qed.

(** Every pixel of the canvas is the source's pixel, as [Set] stores it. *)
Lemma canvas_At (x y : Z) :
  Point_In (mkPoint x y) srcBounds = true ->
  RGBAAt (canvas srcAt srcBounds p) x y = rgbaModel (srcAt x y).
Proof.
  intros Hp. unfold canvas. rewrite draw_buf_fill.
  pose proof (NewRGBA_Some _ _ alloc) as (Hw & Hh & _ & _).
  pose proof (proj1 (Point_In_spec x y srcBounds) Hp) as [Hx Hy].
  rewrite fill_At_hit.
  - f_equal. f_equal; lia.
  - apply (NewRGBA_wf srcBounds); assumption.
  - apply elem_of_grid. rewrite !elem_of_seqZ.
    rewrite (Dx_exact srcBounds x), (Dy_exact srcBounds y) by assumption.
    lia.
  - rewrite (NewRGBA_Rect _ _ alloc). exact Hp.
Qed.

End Canvas.

(* ===================================================================== *)
(** * Blending with opacity zero *)
(* ===================================================================== *)

Lemma is_f0_eq (f : float64) : is_f0 f = true -> f = f0.
Proof. destruct f as [[|] | | |]; try discriminate. reflexivity. Qed.

Lemma all_from_spec (P : Z -> bool) (n : nat) :
  forall z, all_from n z P = true ->
    forall k, z <= k < z + Z.of_nat n -> P k = true.
Proof.
  induction n as [|n IH]; intros z Hall k Hk; [lia|].
  cbn [all_from] in Hall. apply andb_true_iff in Hall as [Hz Hrest].
  destruct (Z.eq_dec k z) as [->|Hne]; [exact Hz|].
  apply (IH (Z.succ z)); [exact Hrest | lia].
Qed.

(** [float64(oa) / 65535.0 * 0] is [+0] for every alpha of the 16-bit
    scale: checked on each of them. *)
Lemma effective_alpha_zero_table :
  all_from (Z.to_nat 65536) 0
    (fun oa => is_f0 (fmul (fdiv (of_Z oa) f65535) f0)) = true.
Proof. vm_cast_no_check (eq_refl true). Qed.

Lemma effective_alpha_zero (overlay : Color) :
  effective_alpha overlay f0 = f0.
Proof.
  unfold effective_alpha. apply is_f0_eq.
  pose proof (Color_RGBA_range overlay) as (_ & _ & _ & Ha).
  unfold chan16 in Ha.
  apply (all_from_spec _ _ _ effective_alpha_zero_table). lia.
Qed.

Lemma fmul_zero_table :
  all_from 256 0 (fun o => is_f0 (fmul (of_Z o) f0)) = true.
Proof. vm_cast_no_check (eq_refl true). Qed.

(** With weight [+0] the blend of a channel is the base channel. *)
Lemma mix_zero `{Arch} (b : byte) (o : Z) :
  0 <= o <= 255 -> float_to_uint8 (mix (u8z b) o f0) = b.
Proof.
  intros Ho. unfold mix.
  assert (fmul (of_Z o) f0 = f0) as ->.
  { apply is_f0_eq.
    apply (all_from_spec _ _ _ fmul_zero_table). lia. }
  destruct b; vm_compute; reflexivity.
Qed.

Lemma chan16_high_byte (z : Z) : chan16 z -> 0 <= z / 256 <= 255.
Proof.
  unfold chan16. intros Hz.
  pose proof (Z.div_mod z 256 ltac:(lia)).
  pose proof (Z.mod_pos_bound z 256 ltac:(lia)). lia.
Qed.

Lemma blendChannel_zero `{Arch} (b : byte) (o : Z) :
  chan16 o -> blendChannel (spread b) o f0 = b.
Proof.
  intros Ho. rewrite blendChannel_mix.
  replace (spread b / 256) with (u8z b)
    by (rewrite <- spread_shiftr, Z.shiftr_div_pow2 by lia; reflexivity).
  apply mix_zero. apply chan16_high_byte. exact Ho.
Qed.

(** On a pixel of an RGBA buffer, blending with opacity [0] returns the
    pixel itself, whatever the overlay. *)
Lemma blendColors_zero_opacity `{Arch} (c : RGBA) (overlay : Color) :
  blendColors (ColorRGBA c) overlay f0 = ColorRGBA c.
Proof.
  destruct (Z.eq_dec (alpha16 overlay) 0) as [Ha | Ha].
  - apply blendColors_transparent. exact Ha.
  - rewrite blendColors_visible by exact Ha.
    rewrite effective_alpha_zero.
    pose proof (Color_RGBA_range overlay) as (Hr & Hg & Hb & _).
    destruct c as [r g b a].
    unfold red16, green16, blue16, alpha16; cbn [Color_RGBA R G B A].
    fold (red16 overlay) (green16 overlay) (blue16 overlay).
    rewrite !blendChannel_zero by assumption.
    rewrite spread_shiftr, uint8_u8z. reflexivity.
Qed.

(* ===================================================================== *)
(** * Loops with a stride *)
(* ===================================================================== *)

(** A loop whose counter does not move and is below the limit never ends:
    no fuel is enough. *)
Lemma for_stride_stuck {St : Type} (body : Z -> St -> option St)
    (i limit stride : Z) :
  i < limit -> int_add i stride = i ->
  forall fuel s, for_stride fuel i limit stride body s = None.
Proof.
  intros Hlt Hfix. apply Z.ltb_lt in Hlt.
  induction fuel as [|fuel IH]; intros s; cbn [for_stride]; rewrite Hlt.
  - reflexivity.
  - destruct (body i s) as [s'|]; [|reflexivity].
    rewrite Hfix. apply IH.
Qed.

(** With a positive stride that cannot overflow, [limit - i] iterations are
    enough, and an invariant of the body holds at the end. *)
Lemma for_stride_returns {St : Type} (P : St -> Prop)
    (body : Z -> St -> option St) (limit stride : Z) :
  0 < stride -> limit + stride <= maxInt + 1 ->
  (forall i s, P s -> exists s', body i s = Some s' /\ P s') ->
  forall fuel i s,
    0 <= i -> (Z.to_nat (limit - i) <= fuel)%nat -> P s ->
    exists s', for_stride fuel i limit stride body s = Some s' /\ P s'.
Proof.
  intros Hs Hov Hbody.
  induction fuel as [|fuel IH]; intros i s Hi Hfuel HP; cbn [for_stride];
    destruct (i <? limit) eqn:Hlt;
    try (exists s; split; [reflexivity|exact HP]).
  - apply Z.ltb_lt in Hlt. lia.
  - apply Z.ltb_lt in Hlt.
    destruct (Hbody i s HP) as (s' & -> & HP').
    unfold int_add. rewrite int_wrap_id
      by (unfold is_int, minInt, maxInt in *; lia).
    apply IH; [lia | lia | exact HP'].
Qed.

(** A body that leaves the state as it is makes the loop return it. *)
Lemma for_stride_fixed {St : Type} (body : Z -> St -> option St)
    (limit stride : Z) (s : St) :
  0 < stride -> limit + stride <= maxInt + 1 ->
  (forall i, body i s = Some s) ->
  forall fuel, (Z.to_nat limit <= fuel)%nat ->
    for_stride fuel 0 limit stride body s = Some s.
Proof.
  intros Hs Hov Hbody fuel Hfuel.
  destruct (for_stride_returns (fun s' => s' = s) body limit stride Hs Hov)
    with (fuel := fuel) (i := 0) (s := s) as (s' & E & ->).
  - intros i s' ->. exists s. auto.
  - lia.
  - rewrite Z.sub_0_r. exact Hfuel.
  - reflexivity.
  - exact E.
Qed.

(* ===================================================================== *)
(** * What the two renderers return *)
(* ===================================================================== *)

Section Renderers.
Context `{Arch}.
Variable h : heap.
Variables src watermark : Image.
Variables srcBounds wmBounds : Rectangle.
Variable p : RGBAImage.
Hypothesis src_bounds : Image_Bounds h src = Some srcBounds.
Hypothesis wm_bounds : Image_Bounds h watermark = Some wmBounds.
Hypothesis alloc : NewRGBA srcBounds = Some p.

Lemma Apply_returns (opts : Options) :
  Apply h src watermark opts =
  Returns (fresh (dom h),
           <[fresh (dom h) :=
               Apply_result h src watermark srcBounds wmBounds p opts]> h).
Proof.
  unfold Apply, Apply_result. rewrite src_bounds, wm_bounds, alloc.
  destruct (placement srcBounds wmBounds opts) as [x y]. cbn [fst snd].
  fold (with_dst h (fresh (dom h)) p).
  rewrite (draw_Draw_Src_with_dst h (fresh (dom h)) (is_fresh (dom h)) src)
    by exact src_bounds.
  rewrite (Apply_loops_with_dst h (fresh (dom h)) watermark srcBounds
             wmBounds (is_fresh (dom h)) wm_bounds).
  reflexivity.
Qed.

Lemma Tile_outcome (fuel : nat) (opacity : float64) (spacing : Z) :
  Tile fuel h src watermark opacity spacing =
  match
    Tile_result h src watermark srcBounds wmBounds p fuel opacity spacing
  with
  | Some b => Returns (fresh (dom h), <[fresh (dom h) := b]> h)
  | None => OutOfFuel
  end.
Proof.
  unfold Tile, Tile_result. rewrite src_bounds, wm_bounds, alloc.
  fold (with_dst h (fresh (dom h)) p).
  rewrite (draw_Draw_Src_with_dst h (fresh (dom h)) (is_fresh (dom h)) src)
    by exact src_bounds.
  rewrite (Tile_loops_with_dst h (fresh (dom h)) watermark srcBounds
             wmBounds (is_fresh (dom h)) wm_bounds).
  unfold canvas.
  destruct (Tile_loops_buf _ _ _ _ _ _ _ _); reflexivity.
Qed.
End Renderers.

(* ===================================================================== *)
(** * Overlays that leave the canvas as it is *)
(* ===================================================================== *)

(** The coordinates the loops read the watermark at lie in its bounds. *)
Lemma wm_coords_In (wmBounds : Rectangle) (wx wy : Z) :
  int_rect wmBounds -> well_formed wmBounds ->
  0 <= wx < Dx wmBounds -> 0 <= wy < Dy wmBounds ->
  Point_In (mkPoint (int_add (X (Min wmBounds)) wx)
                    (int_add (Y (Min wmBounds)) wy)) wmBounds = true.
Proof.
  unfold int_rect, well_formed, is_int, minInt, maxInt, Dx, Dy, int_sub.
  intros (H1 & H2 & H3 & H4) [Hx Hy] Hwx Hwy.
  destruct (int_wrap_cases (X (Max wmBounds) - X (Min wmBounds)))
    as (k & Ek & Ik).
  destruct (int_wrap_cases (Y (Max wmBounds) - Y (Min wmBounds)))
    as (j & Ej & Ij).
  unfold is_int, minInt, maxInt in Ik, Ij.
  assert (k = 0) by lia. assert (j = 0) by lia. subst k j.
  apply Point_In_spec. unfold int_add.
  rewrite !int_wrap_id by (unfold is_int, minInt, maxInt; lia). lia.
Qed.

Section Unchanged.
Context `{Arch}.
Variable wmAt : Z -> Z -> Color.
Variables srcBounds wmBounds : Rectangle.

Lemma composite_zero_opacity (dx dy wx wy : Z) (b : RGBAImage) :
  composite wmAt wmBounds f0 dx dy wx wy b = b.
Proof.
  unfold composite. rewrite blendColors_zero_opacity. apply RGBA_Set_At.
Qed.

Lemma composite_transparent (opacity : float64) (dx dy wx wy : Z)
    (b : RGBAImage) :
  alpha16 (wmAt (int_add (X (Min wmBounds)) wx)
                (int_add (Y (Min wmBounds)) wy)) = 0 ->
  composite wmAt wmBounds opacity dx dy wx wy b = b.
Proof.
  intros Ha. unfold composite.
  rewrite blendColors_transparent by exact Ha. apply RGBA_Set_At.
Qed.

Lemma Tile_one_zero_opacity (x y : Z) (b : RGBAImage) :
  Tile_one_buf wmAt srcBounds wmBounds f0 x y b = b.
Proof.
  unfold Tile_one_buf.
  apply foldl_fixed. intros wy _. apply foldl_fixed. intros wx _.
  unfold Tile_pixel_buf. destruct (_ || _); [reflexivity|].
  apply composite_zero_opacity.
Qed.

Hypothesis wm_int : int_rect wmBounds.
Hypothesis wm_wf : well_formed wmBounds.
Hypothesis wm_transparent : transparent wmAt wmBounds.

Lemma Tile_one_transparent (opacity : float64) (x y : Z) (b : RGBAImage) :
  Tile_one_buf wmAt srcBounds wmBounds opacity x y b = b.
Proof.
  unfold Tile_one_buf.
  apply foldl_fixed. intros wy Hwy. apply foldl_fixed. intros wx Hwx.
  apply elem_of_seqZ in Hwy, Hwx.
  unfold Tile_pixel_buf. destruct (_ || _); [reflexivity|].
  apply composite_transparent, wm_transparent, wm_coords_In;
    try assumption; lia.
Qed.

Lemma Apply_loops_transparent (opacity : float64) (x y : Z)
    (b : RGBAImage) :
  Apply_loops_buf wmAt srcBounds wmBounds opacity x y b = b.
Proof.
  unfold Apply_loops_buf.
  apply foldl_fixed. intros wy Hwy. apply foldl_fixed. intros wx Hwx.
  apply elem_of_seqZ in Hwy, Hwx.
  unfold Apply_pixel_buf. destruct (_ || _); [reflexivity|].
  apply composite_transparent, wm_transparent, wm_coords_In;
    try assumption; lia.
Qed.
End Unchanged.

Section TileReturns.
Context `{Arch}.
Variable wmAt : Z -> Z -> Color.
Variables srcBounds wmBounds : Rectangle.
Variables wmW wmH : Z.
Hypothesis wmW_pos : 0 < wmW.
Hypothesis wmH_pos : 0 < wmH.
Hypothesis wmW_fits : Dx srcBounds + wmW <= maxInt + 1.
Hypothesis wmH_fits : Dy srcBounds + wmH <= maxInt + 1.

(** With positive strides the outer loops of [Tile] end, whatever the
    tiles do. *)
Lemma Tile_loops_returns (opacity : float64) (fuel : nat) (b : RGBAImage) :
  (Tile_fuel srcBounds <= fuel)%nat ->
  exists b',
    Tile_loops_buf wmAt srcBounds wmBounds opacity fuel wmW wmH b = Some b'.
Proof.
  intros Hfuel. unfold Tile_fuel in Hfuel. unfold Tile_loops_buf.
  destruct (for_stride_returns (fun _ : RGBAImage => True)
              (fun y b =>
                 for_stride fuel 0 (Dx srcBounds) wmW
                   (fun x b =>
                      Some (Tile_one_buf wmAt srcBounds wmBounds opacity
                              x y b)) b)
              (Dy srcBounds) wmH wmH_pos wmH_fits)
    with (fuel := fuel) (i := 0) (s := b) as (b' & E & _);
    [ | lia | lia | exact I | exists b'; exact E ].
  intros y s _.
  destruct (for_stride_returns (fun _ : RGBAImage => True)
              (fun x b =>
                 Some (Tile_one_buf wmAt srcBounds wmBounds opacity x y b))
              (Dx srcBounds) wmW wmW_pos wmW_fits)
    with (fuel := fuel) (i := 0) (s := s) as (s' & E & _);
    [ | lia | lia | exact I | exists s'; split; [exact E | exact I] ].
  intros x s' _. eexists. split; [reflexivity | exact I].
Qed.

(** When no tile changes the buffer, [Tile]'s loops return it. *)
Lemma Tile_loops_unchanged (opacity : float64) (fuel : nat)
    (b : RGBAImage) :
  (forall x y, Tile_one_buf wmAt srcBounds wmBounds opacity x y b = b) ->
  (Tile_fuel srcBounds <= fuel)%nat ->
  Tile_loops_buf wmAt srcBounds wmBounds opacity fuel wmW wmH b = Some b.
Proof.
  intros Hid Hfuel. unfold Tile_fuel in Hfuel. unfold Tile_loops_buf.
  apply for_stride_fixed; [assumption | assumption | | lia].
  intros y.
  apply for_stride_fixed; [assumption | assumption | | lia].
  intros x. rewrite Hid. reflexivity.
Qed.
End TileReturns.

(** Without the hypothesis on the strides: whenever the loops of [Tile]
    return and no tile changes the buffer, they return the buffer. *)
Lemma for_stride_unchanged {St : Type} (body : Z -> St -> option St)
    (limit stride : Z) (s : St) :
  (forall i s', body i s = Some s' -> s' = s) ->
  forall fuel i s',
    for_stride fuel i limit stride body s = Some s' -> s' = s.
Proof.
  intros Hbody. induction fuel as [|fuel IH]; intros i s'; cbn [for_stride];
    destruct (i <? limit); try discriminate;
    try (intros E; inversion E; reflexivity).
  destruct (body i s) as [s1|] eqn:E1; [|discriminate].
  apply Hbody in E1. subst s1. apply IH.
Qed.

Lemma Tile_loops_unchanged_partial `{Arch} (wmAt : Z -> Z -> Color)
    (srcBounds wmBounds : Rectangle) (opacity : float64) (fuel : nat)
    (wmW wmH : Z) (b b' : RGBAImage) :
  (forall x y, Tile_one_buf wmAt srcBounds wmBounds opacity x y b = b) ->
  Tile_loops_buf wmAt srcBounds wmBounds opacity fuel wmW wmH b = Some b' ->
  b' = b.
Proof.
  intros Hid. unfold Tile_loops_buf. apply for_stride_unchanged.
  intros y s'. apply for_stride_unchanged.
  intros x s''. rewrite Hid. intros E. inversion E. reflexivity.
Qed.

(** A loop whose first iteration does not end does not end. *)
Lemma for_stride_first {St : Type} (body : Z -> St -> option St)
    (i limit stride : Z) (s : St) :
  i < limit -> body i s = None ->
  forall fuel, for_stride fuel i limit stride body s = None.
Proof.
  intros Hlt Hb fuel. apply Z.ltb_lt in Hlt.
  destruct fuel as [|fuel']; cbn [for_stride]; rewrite Hlt; [reflexivity|].
  rewrite Hb. reflexivity.
Qed.

(** The inner loop of [Tile] does not end when its stride is zero and the
    source is not empty; the outer loop then never gets past its first
    iteration. *)
Lemma Tile_loops_stuck `{Arch} (wmAt : Z -> Z -> Color)
    (srcBounds wmBounds : Rectangle) (opacity : float64) (wmH : Z)
    (b : RGBAImage) :
  0 < Dx srcBounds -> 0 < Dy srcBounds ->
  forall fuel,
    Tile_loops_buf wmAt srcBounds wmBounds opacity fuel 0 wmH b = None.
Proof.
  intros Hx Hy fuel. unfold Tile_loops_buf.
  apply for_stride_first; [exact Hy|].
  apply for_stride_stuck; [exact Hx | reflexivity].
Qed.

(* ===================================================================== *)
(** * The pixels [Apply] leaves *)
(* ===================================================================== *)

Section Paint.
Context `{Arch}.
Variable wmAt : Z -> Z -> Color.
Variables srcBounds wmBounds : Rectangle.
Variable opacity : float64.
Variables x y : Z.
Hypothesis x_int : is_int x.
Hypothesis y_int : is_int y.

Local Abbreviation step :=
  (Apply_step wmAt srcBounds wmBounds opacity x y).
Local Abbreviation hits := (Apply_hits srcBounds x y).

Lemma Apply_step_cases (b : RGBAImage) (p : Z * Z) :
  step b p =
  if Apply_visible srcBounds x y p
  then composite wmAt wmBounds opacity
         (fst (Apply_dest x y p)) (snd (Apply_dest x y p)) (snd p) (fst p) b
  else b.
Proof.
  unfold Apply_step, Apply_pixel_buf, Apply_visible, Apply_dest;
    cbn [fst snd].
  destruct (_ || _); reflexivity.
Qed.

Lemma composite_wf (dx dy wx wy : Z) (b : RGBAImage) :
  wf_buf b -> wf_buf (composite wmAt wmBounds opacity dx dy wx wy b).
Proof. apply RGBA_Set_wf. Qed.

Lemma Apply_step_wf (b : RGBAImage) (p : Z * Z) :
  wf_buf b -> wf_buf (step b p).
Proof.
  intros Hwf. rewrite Apply_step_cases.
  destruct (Apply_visible _ _ _ _); [apply composite_wf|]; exact Hwf.
Qed.

Lemma Apply_step_Rect (b : RGBAImage) (p : Z * Z) :
  Rect (step b p) = Rect b.
Proof.
  rewrite Apply_step_cases.
  destruct (Apply_visible _ _ _ _); [apply Rect_RGBA_Set | reflexivity].
Qed.

Lemma Apply_step_other (b : RGBAImage) (p : Z * Z) (qx qy : Z) :
  wf_buf b -> ~ hits qx qy p ->
  RGBAAt (step b p) qx qy = RGBAAt b qx qy.
Proof.
  intros Hwf Hn. rewrite Apply_step_cases.
  destruct (Apply_visible srcBounds x y p) eqn:Hv; [|reflexivity].
  unfold composite. apply RGBAAt_Set_other; [exact Hwf|].
  intros E. apply Hn. split; [exact Hv|].
  destruct (Apply_dest x y p) as [dx dy]. exact E.
Qed.

Lemma Apply_step_same (b : RGBAImage) (p : Z * Z) (qx qy : Z) :
  wf_buf b -> hits qx qy p -> Point_In (mkPoint qx qy) (Rect b) = true ->
  RGBAAt (step b p) qx qy =
  rgbaModel
    (blendColors (ColorRGBA (RGBAAt b qx qy))
       (wmAt (int_add (X (Min wmBounds)) (snd p))
             (int_add (Y (Min wmBounds)) (fst p))) opacity).
Proof.
  intros Hwf [Hv Hd] Hp. rewrite Apply_step_cases, Hv, Hd; cbn [fst snd].
  unfold composite. apply RGBAAt_Set_same; assumption.
Qed.

Lemma Apply_steps_miss (pts : list (Z * Z)) (qx qy : Z) :
  forall b, wf_buf b -> (forall p, p ∈ pts -> ~ hits qx qy p) ->
    RGBAAt (foldl step b pts) qx qy = RGBAAt b qx qy.
Proof.
  induction pts as [|p pts IH]; intros b Hwf Hn; cbn [foldl]; [reflexivity|].
  rewrite IH.
  - apply Apply_step_other; [exact Hwf|]. apply Hn, elem_of_cons. auto.
  - apply Apply_step_wf. exact Hwf.
  - intros p' Hp'. apply Hn, elem_of_cons. auto.
Qed.

Lemma Apply_steps_hit (pts : list (Z * Z)) (p0 : Z * Z) (qx qy : Z) :
  NoDup pts -> hits qx qy p0 ->
  (forall p, p ∈ pts -> hits qx qy p -> p = p0) ->
  forall b, wf_buf b -> p0 ∈ pts ->
    Point_In (mkPoint qx qy) (Rect b) = true ->
    RGBAAt (foldl step b pts) qx qy =
    rgbaModel
      (blendColors (ColorRGBA (RGBAAt b qx qy))
         (wmAt (int_add (X (Min wmBounds)) (snd p0))
               (int_add (Y (Min wmBounds)) (fst p0))) opacity).
Proof.
  intros Hnd Hhit. induction pts as [|p pts IH]; intros Huniq b Hwf Hin Hp.
  - apply elem_of_nil in Hin. contradiction.
  - apply NoDup_cons in Hnd as [Hnotin Hnd]. cbn [foldl].
    destruct (decide (p = p0)) as [-> | Hne].
    + rewrite Apply_steps_miss.
      * apply Apply_step_same; assumption.
      * apply Apply_step_wf. exact Hwf.
      * intros p' Hp' Hh. apply Hnotin.
        rewrite <- (Huniq p' (proj2 (elem_of_cons _ _ _) (or_intror Hp')) Hh).
        exact Hp'.
    + apply elem_of_cons in Hin as [-> | Hin]; [contradiction|].
      rewrite IH.
      * rewrite Apply_step_other; [reflexivity | exact Hwf |].
        intros Hh. apply Hne, Huniq; [apply elem_of_cons; auto | exact Hh].
      * exact Hnd.
      * intros p' Hp'. apply Huniq, elem_of_cons. auto.
      * apply Apply_step_wf. exact Hwf.
      * exact Hin.
      * rewrite Apply_step_Rect. exact Hp.
Qed.

(** An in-range sum that is not negative did not wrap. *)
Lemma int_add_nonneg (a w : Z) :
  is_int a -> 0 <= w <= maxInt -> 0 <= int_add a w -> int_add a w = a + w.
Proof.
  unfold int_add. intros Ha Hw Hs.
  destruct (int_wrap_cases (a + w)) as (k & E & I).
  unfold is_int, minInt, maxInt in *. lia.
Qed.

Lemma Dx_le_maxInt (r : Rectangle) : Dx r <= maxInt.
Proof. apply (int_wrap_is_int (X (Max r) - X (Min r))). Qed.

Lemma Dy_le_maxInt (r : Rectangle) : Dy r <= maxInt.
Proof. apply (int_wrap_is_int (Y (Max r) - Y (Min r))). Qed.

(** The pixels of the grid that are composited onto [(qx, qy)]: the one at
    [(qy - y, qx - x)] when the point is covered, none otherwise. *)
Lemma hits_grid (qx qy : Z) (p : Z * Z) :
  p ∈ grid (seqZ 0 (Dy wmBounds)) (seqZ 0 (Dx wmBounds)) ->
  hits qx qy p ->
  p = (qy - y, qx - x) /\ covered srcBounds wmBounds x y qx qy = true.
Proof.
  destruct p as [wy wx]. intros Hin [Hv Hd].
  apply elem_of_grid in Hin as [Hwy Hwx]. apply elem_of_seqZ in Hwy, Hwx.
  pose proof (Dx_le_maxInt wmBounds) as Mx.
  pose proof (Dy_le_maxInt wmBounds) as My.
  unfold Apply_visible, Apply_dest in Hv, Hd; cbn [fst snd] in Hv, Hd.
  injection Hd as Ex Ey. rewrite Ex, Ey in Hv.
  apply negb_true_iff in Hv.
  apply orb_false_iff in Hv as [Hv H4]. apply orb_false_iff in Hv as [Hv H3].
  apply orb_false_iff in Hv as [H1 H2].
  apply Z.ltb_ge in H1, H3. rewrite Z.geb_leb in H2, H4.
  apply Z.leb_gt in H2, H4.
  rewrite int_add_nonneg in Ex by (try assumption; lia).
  rewrite int_add_nonneg in Ey by (try assumption; lia).
  split; [f_equal; lia|].
  unfold covered. repeat (apply andb_true_iff; split);
    first [apply Z.leb_le | apply Z.ltb_lt]; lia.
Qed.

Lemma covered_hits (qx qy : Z) :
  covered srcBounds wmBounds x y qx qy = true ->
  (qy - y, qx - x) ∈ grid (seqZ 0 (Dy wmBounds)) (seqZ 0 (Dx wmBounds)) /\
  hits qx qy (qy - y, qx - x).
Proof.
  unfold covered. rewrite !andb_true_iff, !Z.leb_le, !Z.ltb_lt.
  intros (((((((H1 & H2) & H3) & H4) & H5) & H6) & H7) & H8).
  pose proof (Dx_le_maxInt srcBounds) as Mx.
  pose proof (Dy_le_maxInt srcBounds) as My.
  assert (Ex : int_add x (qx - x) = qx)
    by (unfold int_add; rewrite int_wrap_id;
        [lia | unfold is_int, minInt, maxInt in *; lia]).
  assert (Ey : int_add y (qy - y) = qy)
    by (unfold int_add; rewrite int_wrap_id;
        [lia | unfold is_int, minInt, maxInt in *; lia]).
  split.
  - apply elem_of_grid. rewrite !elem_of_seqZ. lia.
  - unfold Apply_hits, Apply_visible, Apply_dest; cbn [fst snd].
    rewrite Ex, Ey.
    split; [|reflexivity].
    apply negb_true_iff. rewrite !Z.geb_leb.
    repeat (apply orb_false_iff; split);
      first [apply Z.ltb_ge | apply Z.leb_gt]; lia.
Qed.

Lemma NoDup_grid (ys xs : list Z) :
  NoDup ys -> NoDup xs -> NoDup (grid ys xs).
Proof.
  intros Hys Hxs. unfold grid. apply NoDup_bind; [| |exact Hys].
  - intros y1 y2 [y' x'] _ _ H1 H2.
    apply list_elem_of_fmap in H1 as (? & E1 & _).
    apply list_elem_of_fmap in H2 as (? & E2 & _).
    inversion E1. inversion E2. congruence.
  - intros y' _. apply NoDup_fmap_2; [|exact Hxs].
    intros x1 x2 E. inversion E. reflexivity.
Qed.

(** Every pixel of the buffer [Apply]'s loops leave: the blend of the
    buffer's pixel with the watermark's where the point is covered, the
    buffer's pixel elsewhere. *)
Lemma Apply_loops_At (b : RGBAImage) (qx qy : Z) :
  wf_buf b -> Point_In (mkPoint qx qy) (Rect b) = true ->
  RGBAAt (Apply_loops_buf wmAt srcBounds wmBounds opacity x y b) qx qy =
  if covered srcBounds wmBounds x y qx qy
  then rgbaModel
         (blendColors (ColorRGBA (RGBAAt b qx qy))
            (wmAt (int_add (X (Min wmBounds)) (qx - x))
                  (int_add (Y (Min wmBounds)) (qy - y))) opacity)
  else RGBAAt b qx qy.
Proof.
  intros Hwf Hp.
  replace (Apply_loops_buf wmAt srcBounds wmBounds opacity x y b)
    with (foldl step b (grid (seqZ 0 (Dy wmBounds)) (seqZ 0 (Dx wmBounds))))
    by (unfold Apply_loops_buf;
        rewrite (foldl_grid
                   (fun b wy wx =>
                      Apply_pixel_buf wmAt srcBounds wmBounds opacity x y
                        wy wx b));
        reflexivity).
  destruct (covered srcBounds wmBounds x y qx qy) eqn:Hc.
  - destruct (covered_hits qx qy Hc) as [Hin Hh].
    apply (Apply_steps_hit _ (qy - y, qx - x)); try assumption.
    + apply NoDup_grid; apply NoDup_seqZ.
    + intros p Hpin Hph. apply (hits_grid qx qy p Hpin Hph).
  - apply Apply_steps_miss; [exact Hwf|].
    intros p Hpin Hph. destruct (hits_grid qx qy p Hpin Hph) as [_ Hc'].
    congruence.
Qed.

Lemma Apply_loops_Rect (b : RGBAImage) :
  Rect (Apply_loops_buf wmAt srcBounds wmBounds opacity x y b) = Rect b.
Proof.
  unfold Apply_loops_buf.
  apply (foldl_invariant (fun b' => Rect b' = Rect b)); [|reflexivity].
  intros b' wy _ E.
  apply (foldl_invariant (fun b'' => Rect b'' = Rect b)); [|exact E].
  intros b'' wx _ E'. rewrite <- E'.
  apply (Apply_step_Rect b'' (wy, wx)).
Qed.
End Paint.

Lemma placement_is_int (srcBounds wmBounds : Rectangle) (opts : Options) :
  is_int (PaddingX opts) -> is_int (PaddingY opts) ->
  is_int (fst (placement srcBounds wmBounds opts)) /\
  is_int (snd (placement srcBounds wmBounds opts)).
Proof.
  intros Hx Hy. unfold placement, int_quot, int_sub.
  repeat (destruct (_ =? _)); cbn [fst snd];
    split; first [assumption | apply int_wrap_is_int
                  | unfold is_int, minInt, maxInt; lia].
Qed.

(* ===================================================================== *)
(** * Preservation of the caller's images *)
(* ===================================================================== *)

Lemma extends_with_fresh (h : heap) (b : RGBAImage) :
  extends_with h (fresh (dom h)) (<[fresh (dom h) := b]> h).
Proof.
  pose proof (is_fresh (dom h)) as Hd.
  split; [exact Hd|]. split; [rewrite lookup_insert_eq; eauto|].
  split; [intros l Hl; apply lookup_insert_ne; congruence|].
  intros m r Hm. split.
  - destruct m as [l | bounds f]; [|exact Hm]. cbn [Image_Bounds] in *.
    rewrite lookup_insert_ne; [exact Hm|].
    intros <-. apply Hd, elem_of_dom.
    destruct (h !! fresh (dom h)); [eauto | discriminate].
  - intros x y. apply (Image_At_frame h _ m r); assumption.
Qed.

(* ===================================================================== *)
(** * The placement formulas *)
(* ===================================================================== *)

Lemma int_sub_exact (a b : Z) : is_int (a - b) -> int_sub a b = a - b.
Proof. apply int_wrap_id. Qed.

Lemma int_quot_2 (a : Z) : is_int a -> int_quot a 2 = Z.quot a 2.
Proof.
  intros Ha. apply int_wrap_id. unfold is_int, minInt, maxInt in *.
  pose proof (Z.quot_rem a 2 ltac:(lia)) as E.
  pose proof (Z.rem_bound_abs a 2 ltac:(lia)) as Hr.
  lia.
Qed.

Lemma normalizeOpacity_cases (opacity : float64) :
  normalizeOpacity opacity =
  if fleb opacity f0 then fhalf
  else if fltb f1 opacity then f1 else opacity.
Proof.
  unfold normalizeOpacity. destruct (fleb opacity f0); reflexivity.
Qed.

(* ===================================================================== *)
(** * The compositor: statements *)
(* ===================================================================== *)

(** C1, as the claim states it, fails: the channels are reduced to their
    high byte before the blend, not after it. Take the black pixel of an
    RGBA buffer, the opaque overlay whose red is 344 of 65535, and opacity
    0.75. On the 16-bit scale the blend is [0 * 0.25 + 344 * 0.75 = 258],
    which is 1 on eight bits however it is reduced (258 / 256, 258 / 257),
    and 2 if it is only wrapped; [blendColors] blends the high bytes 0 and
    1 into 0.75 and returns red 0. *)
Lemma blendColors_not_16bit :
  alpha16 overlay344 <> 0 /\
  red16 black = 0 /\ red16 overlay344 = 344 /\
  effective_alpha overlay344 f075 = f075 /\
  trunc (mix (red16 black) (red16 overlay344) f075) = Some 258 /\
  258 / 256 = 1 /\ 258 / 257 = 1 /\ 258 mod 256 = 2 /\
  trunc (mix (red16 black / 256) (red16 overlay344 / 256) f075) = Some 0 /\
  blendColors black overlay344 f075 = ColorRGBA (mkRGBA x00 x00 x00 xff).
Proof.
  split; [vm_compute; discriminate|].
  vm_compute. repeat split; reflexivity.
Qed.

(** C1 (amended): for every base pixel, overlay pixel with nonzero alpha and
    opacity, [blendColors] returns an RGBA colour whose red, green and blue
    are [b*(1 - ea) + o*ea] computed in [float64] and truncated to a
    [uint8], where [ea = alpha/65535 * opacity] and [b], [o] are the high
    bytes (the 16-bit channel divided by 256) of the base and overlay
    channels: the reduction to eight bits comes before the blend. *)
Theorem blendColors_formula `{Arch} (base overlay : Color)
    (opacity : float64) :
  alpha16 overlay <> 0 ->
  exists r g b : byte,
    blendColors base overlay opacity =
      ColorRGBA (mkRGBA r g b (uint8 (alpha16 base / 256))) /\
    truncated (mix (red16 base / 256) (red16 overlay / 256)
                 (fmul (fdiv (of_Z (alpha16 overlay)) f65535) opacity)) r /\
    truncated (mix (green16 base / 256) (green16 overlay / 256)
                 (fmul (fdiv (of_Z (alpha16 overlay)) f65535) opacity)) g /\
    truncated (mix (blue16 base / 256) (blue16 overlay / 256)
                 (fmul (fdiv (of_Z (alpha16 overlay)) f65535) opacity)) b.
Proof.
  intros Ha. rewrite blendColors_visible by exact Ha.
  rewrite !blendChannel_mix, Z.shiftr_div_pow2 by lia.
  do 3 eexists. split; [reflexivity|].
  repeat split; try apply float_to_uint8_trunc; assumption.
Qed.

Lemma blendColors_formula_witness :
  alpha16 overlay344 <> 0 /\
  exists r g b : byte,
    blendColors black overlay344 f075 =
      ColorRGBA (mkRGBA r g b (uint8 (alpha16 black / 256))) /\
    truncated (mix (red16 black / 256) (red16 overlay344 / 256)
                 (fmul (fdiv (of_Z (alpha16 overlay344)) f65535) f075)) r /\
    truncated (mix (green16 black / 256) (green16 overlay344 / 256)
                 (fmul (fdiv (of_Z (alpha16 overlay344)) f65535) f075)) g /\
    truncated (mix (blue16 black / 256) (blue16 overlay344 / 256)
                 (fmul (fdiv (of_Z (alpha16 overlay344)) f65535) f075)) b.
Proof.
  assert (Ha : alpha16 overlay344 <> 0) by (vm_compute; discriminate).
  split; [exact Ha|].
  exact (blendColors_formula black overlay344 f075 Ha).
Defined.

(** C4: when the overlay pixel's alpha is exactly zero, [blendColors]
    returns the base pixel itself, for every base pixel and opacity. *)
Theorem blendColors_transparent_overlay `{Arch} (base overlay : Color)
    (opacity : float64) :
  alpha16 overlay = 0 -> blendColors base overlay opacity = base.
Proof. apply blendColors_transparent. Qed.

Lemma blendColors_transparent_overlay_witness :
  alpha16 (ColorNRGBA xff xff xff x00) = 0 /\
  blendColors (ColorRGBA64 511 7 9 4863) (ColorNRGBA xff xff xff x00) fhalf
  = ColorRGBA64 511 7 9 4863.
Proof.
  split; [reflexivity|].
  apply (blendColors_transparent_overlay (ColorRGBA64 511 7 9 4863)
           (ColorNRGBA xff xff xff x00)).
  reflexivity.
Defined.

(** C5: the alpha of the pixel [blendColors] returns is the base pixel's
    alpha reduced to eight bits, whatever the overlay and the opacity. When
    the overlay is visible the result is an RGBA colour whose alpha byte is
    [uint8(ba >> 8)]; when it is transparent the result is the base pixel;
    either way the alpha byte an RGBA buffer stores for the result is
    [uint8(ba >> 8)], the high byte of the result's 16-bit alpha is the
    base's, and two overlays never give two alphas. On a base pixel read
    from an RGBA buffer, as in every call [Apply] and [Tile] make, it is
    the pixel's own alpha byte. *)
Theorem blendColors_alpha `{Arch} (base overlay : Color) (opacity : float64) :
  A (rgbaModel (blendColors base overlay opacity)) = uint8 (alpha16 base / 256)
  /\ (alpha16 overlay <> 0 ->
      exists c, blendColors base overlay opacity = ColorRGBA c /\
                A c = uint8 (alpha16 base / 256))
  /\ (alpha16 overlay = 0 -> blendColors base overlay opacity = base)
  /\ alpha16 (blendColors base overlay opacity) / 256 = alpha16 base / 256
  /\ (forall overlay' opacity',
        A (rgbaModel (blendColors base overlay' opacity')) =
        A (rgbaModel (blendColors base overlay opacity)))
  /\ (forall c, base = ColorRGBA c ->
        A (rgbaModel (blendColors base overlay opacity)) = A c).
Proof.
  assert (Hstored : forall o op,
             A (rgbaModel (blendColors base o op))
             = uint8 (alpha16 base / 256)).
  { intros o op. destruct (Z.eq_dec (alpha16 o) 0) as [Ha | Ha].
    - rewrite blendColors_transparent by exact Ha.
      rewrite rgbaModel_high_bytes; cbn [A].
      rewrite Z.shiftr_div_pow2 by lia. reflexivity.
    - rewrite blendColors_visible by exact Ha. cbn [rgbaModel A].
      rewrite Z.shiftr_div_pow2 by lia. reflexivity. }
  split; [apply Hstored|]. split; [|split; [|split; [|split]]].
  - intros Ha. rewrite blendColors_visible by exact Ha.
    eexists. split; [reflexivity|]. cbn [A].
    rewrite Z.shiftr_div_pow2 by lia. reflexivity.
  - apply blendColors_transparent.
  - destruct (Z.eq_dec (alpha16 overlay) 0) as [Ha | Ha].
    + rewrite blendColors_transparent by exact Ha. reflexivity.
    + rewrite blendColors_visible by exact Ha.
      unfold alpha16 at 1; cbn [Color_RGBA A].
      rewrite spread_257, u8z_uint8, Z.shiftr_div_pow2 by lia.
      pose proof (Color_RGBA_range base) as (_ & _ & _ & Hb).
      pose proof (chan16_high_byte _ Hb) as Hk.
      change (2 ^ 8) with 256.
      rewrite (Z.mod_small (alpha16 base / 256)) by lia.
      pose proof (Z.div_mod (257 * (alpha16 base / 256)) 256 ltac:(lia)).
      pose proof (Z.mod_pos_bound (257 * (alpha16 base / 256)) 256 ltac:(lia)).
      lia.
  - intros o' op'. rewrite !Hstored. reflexivity.
  - intros c ->. rewrite Hstored. unfold alpha16; cbn [Color_RGBA].
    rewrite <- (Z.shiftr_div_pow2 _ 8), spread_shiftr by lia.
    apply uint8_u8z.
Qed.

(* ===================================================================== *)
(** * Placement: statements *)
(* ===================================================================== *)

(** C6: the top-left corner of the watermark is
    Center ((base_w - ow)/2, (base_h - oh)/2) with the division truncating
    toward zero, TopLeft (paddingX, paddingY),
    TopRight (base_w - ow - paddingX, paddingY),
    BottomLeft (paddingX, base_h - oh - paddingY),
    BottomRight (base_w - ow - paddingX, base_h - oh - paddingY),
    as long as these differences are [int]s; and on a 200x100 base with a
    40x20 overlay and padding (10,10) the corners are (80,40), (10,10),
    (150,10), (10,70) and (150,70). A 4x4 overlay centred on a 1x1 base
    starts at (-1,-1): -3/2 is -1, not -2. *)
Theorem placement_offsets (srcBounds wmBounds : Rectangle)
    (opacity : float64) (paddingX paddingY : Z) :
  is_int (Dx srcBounds - Dx wmBounds) ->
  is_int (Dy srcBounds - Dy wmBounds) ->
  is_int (Dx srcBounds - Dx wmBounds - paddingX) ->
  is_int (Dy srcBounds - Dy wmBounds - paddingY) ->
  let at_ pos :=
    placement srcBounds wmBounds (mkOptions pos opacity paddingX paddingY) in
  let at_example pos :=
    placement (rect 0 0 200 100) (rect 0 0 40 20)
      (mkOptions pos opacity 10 10) in
  at_ Center = (Z.quot (Dx srcBounds - Dx wmBounds) 2,
                Z.quot (Dy srcBounds - Dy wmBounds) 2) /\
  at_ TopLeft = (paddingX, paddingY) /\
  at_ TopRight = (Dx srcBounds - Dx wmBounds - paddingX, paddingY) /\
  at_ BottomLeft = (paddingX, Dy srcBounds - Dy wmBounds - paddingY) /\
  at_ BottomRight = (Dx srcBounds - Dx wmBounds - paddingX,
                     Dy srcBounds - Dy wmBounds - paddingY) /\
  at_example TopLeft = (10, 10) /\
  at_example TopRight = (150, 10) /\
  at_example BottomLeft = (10, 70) /\
  at_example BottomRight = (150, 70) /\
  at_example Center = (80, 40) /\
  placement (rect 0 0 1 1) (rect 0 0 4 4)
    (mkOptions Center opacity paddingX paddingY) = (-1, -1).
Proof.
  intros Hw Hh Hwp Hhp at_ at_example. subst at_ at_example.
  unfold placement; cbn [OptPosition PaddingX PaddingY Z.eqb Center TopLeft
                           TopRight BottomLeft BottomRight Pos.eqb].
  rewrite (int_sub_exact (Dx srcBounds)), (int_sub_exact (Dy srcBounds))
    by assumption.
  rewrite !int_sub_exact, !int_quot_2 by assumption.
  repeat split; reflexivity.
Qed.

Lemma placement_offsets_witness :
  is_int (Dx (rect 0 0 640 480) - Dx (rect 0 0 65 33) - 7) /\
  placement (rect 0 0 640 480) (rect 0 0 65 33) (mkOptions Center fhalf 7 9)
  = (287, 223) /\
  placement (rect 0 0 640 480) (rect 0 0 65 33)
    (mkOptions BottomRight fhalf 7 9) = (568, 438).
Proof.
  assert (I1 : is_int (Dx (rect 0 0 640 480) - Dx (rect 0 0 65 33)))
    by (vm_compute; split; discriminate).
  assert (I2 : is_int (Dy (rect 0 0 640 480) - Dy (rect 0 0 65 33)))
    by (vm_compute; split; discriminate).
  assert (I3 : is_int (Dx (rect 0 0 640 480) - Dx (rect 0 0 65 33) - 7))
    by (vm_compute; split; discriminate).
  assert (I4 : is_int (Dy (rect 0 0 640 480) - Dy (rect 0 0 65 33) - 9))
    by (vm_compute; split; discriminate).
  pose proof (placement_offsets (rect 0 0 640 480) (rect 0 0 65 33) fhalf 7 9
                I1 I2 I3 I4) as (Hc & _ & _ & _ & Hbr & _).
  split; [exact I3|]. split; [exact Hc | exact Hbr].
Defined.

(* ===================================================================== *)
(** * Example images *)
(* ===================================================================== *)

(* ===================================================================== *)
(** * Opacity: statements *)
(* ===================================================================== *)



(* ===================================================================== *)
(** * Fresh output buffers: statements *)
(* ===================================================================== *)



(* ===================================================================== *)
(** * Inputs on which the code departs from its specification *)
(* ===================================================================== *)

(** C3 at a failing input: on a 1x1 source with an empty (0x0) watermark
    and spacing 0 both strides are 0, the inner loop of [Tile] stays at
    [x = 0], and no number of iterations is enough for the call to
    return. *)
Theorem Tile_zero_stride_never_returns `{Arch} (fuel : nat)
    (opacity : float64) :
  int_add (Dx (rect 0 0 0 0)) 0 = 0 /\
  Tile fuel ∅ (uniform (rect 0 0 1 1) white) (uniform (rect 0 0 0 0) red)
    opacity 0 = OutOfFuel.
Proof.
  split; [reflexivity|].
  rewrite (Tile_outcome ∅ (uniform (rect 0 0 1 1) white)
             (uniform (rect 0 0 0 0) red) (rect 0 0 1 1) (rect 0 0 0 0)
             (buffer (rect 0 0 1 1) [zeroRGBA]) eq_refl eq_refl eq_refl).
  unfold Tile_result.
  change (int_add (Dx (rect 0 0 0 0)) 0) with 0.
  rewrite Tile_loops_stuck by reflexivity. reflexivity.
Qed.

(** C9 at a failing input: a fully transparent 1x1 watermark tiled with
    spacing -1 has stride 0, and [Tile] does not return, so it returns no
    copy of the source. *)
Theorem Tile_transparent_overlay_never_returns `{Arch} (fuel : nat)
    (opacity : float64) :
  transparent (Image_At ∅ (uniform (rect 0 0 1 1) zeroRGBA)) (rect 0 0 1 1) /\
  int_add (Dx (rect 0 0 1 1)) (-1) = 0 /\
  Tile fuel ∅ (uniform (rect 0 0 1 1) white) (uniform (rect 0 0 1 1) zeroRGBA)
    opacity (-1) = OutOfFuel.
Proof.
  split; [intros x y _; reflexivity|]. split; [reflexivity|].
  rewrite (Tile_outcome ∅ (uniform (rect 0 0 1 1) white)
             (uniform (rect 0 0 1 1) zeroRGBA) (rect 0 0 1 1) (rect 0 0 1 1)
             (buffer (rect 0 0 1 1) [zeroRGBA]) eq_refl eq_refl eq_refl).
  unfold Tile_result.
  change (int_add (Dx (rect 0 0 1 1)) (-1)) with 0.
  rewrite Tile_loops_stuck by reflexivity. reflexivity.
Qed.

(** C7 at a failing input: a 2x2 blue source whose rectangle starts at
    (5,5), an opaque red 1x1 watermark at TopLeft with no padding. The
    watermark's pixel goes to (0,0), which is neither negative nor beyond
    the width or height, so the bounds test lets it through; but [dst.At]
    and [dst.Set] take (0,0) as a point of the plane, which is outside the
    buffer's rectangle: nothing is composited and the output is the source.
    The same picture with its rectangle at (0,0) gets the red pixel. *)
Theorem Apply_offset_origin_composites_nothing `{Arch} :
  placement (rect 5 5 7 7) (rect 0 0 1 1) (mkOptions TopLeft f1 0 0) = (0, 0)
  /\ Dx (rect 5 5 7 7) = 2 /\ Dy (rect 5 5 7 7) = 2
  /\ Apply ∅ (uniform (rect 5 5 7 7) blue) (uniform (rect 0 0 1 1) red)
       (mkOptions TopLeft f1 0 0)
     = Returns (1%positive,
                {[ 1%positive :=
                     buffer (rect 5 5 7 7) [blue; blue; blue; blue] ]})
  /\ Apply ∅ (uniform (rect 0 0 2 2) blue) (uniform (rect 0 0 1 1) red)
       (mkOptions TopLeft f1 0 0)
     = Returns (1%positive,
                {[ 1%positive :=
                     buffer (rect 0 0 2 2) [red; blue; blue; blue] ]}).
Proof. repeat split; vm_compute; reflexivity. Qed.

(** C8 at a failing input: a 2x2 blue source whose rectangle starts at
    (1,1), an opaque red 1x1 watermark at TopLeft with padding (1,1). The
    offset (1,1) counted from the source's corner is its last pixel, the
    point (2,2); [Apply] writes the point (1,1) of the plane instead, the
    source's first pixel. *)
Theorem Apply_offset_origin_misplaces_overlay `{Arch} :
  placement (rect 1 1 3 3) (rect 0 0 1 1) (mkOptions TopLeft f1 1 1) = (1, 1)
  /\ Apply ∅ (uniform (rect 1 1 3 3) blue) (uniform (rect 0 0 1 1) red)
       (mkOptions TopLeft f1 1 1)
     = Returns (1%positive,
                {[ 1%positive :=
                     buffer (rect 1 1 3 3) [red; blue; blue; blue] ]})
  /\ Apply ∅ (uniform (rect 0 0 2 2) blue) (uniform (rect 0 0 1 1) red)
       (mkOptions TopLeft f1 1 1)
     = Returns (1%positive,
                {[ 1%positive :=
                     buffer (rect 0 0 2 2) [blue; blue; blue; red] ]}).
Proof. repeat split; vm_compute; reflexivity. Qed.

(* ===================================================================== *)
(** * What holds of the renderers besides *)
(* ===================================================================== *)

(** On a source whose rectangle starts at (0,0), [Apply] returns the source
    with exactly the part of the watermark that falls inside it composited:
    the pixel at [(qx, qy)] is the blend of the source's pixel with the
    watermark's pixel [(qx - x, qy - y)] where the watermark placed at
    [(x, y)] covers the point, and the source's pixel elsewhere; no pixel
    of the watermark that falls outside is written, and the call returns
    whatever the sizes and the offset are. *)
Theorem Apply_clips_overlay `{Arch} (h : heap) (src watermark : Image)
    (srcBounds wmBounds : Rectangle) (p : RGBAImage) (opts : Options) :
  Image_Bounds h src = Some srcBounds ->
  Image_Bounds h watermark = Some wmBounds ->
  int_rect srcBounds ->
  NewRGBA srcBounds = Some p ->
  Min srcBounds = mkPoint 0 0 ->
  is_int (PaddingX opts) -> is_int (PaddingY opts) ->
  exists d h' out,
    Apply h src watermark opts = Returns (d, h') /\
    h' !! d = Some out /\
    Rect out = srcBounds /\
    forall qx qy, Point_In (mkPoint qx qy) srcBounds = true ->
      RGBAAt out qx qy =
      if overlaps wmBounds (fst (placement srcBounds wmBounds opts))
           (snd (placement srcBounds wmBounds opts)) qx qy
      then rgbaModel
             (blendColors (ColorRGBA (rgbaModel (Image_At h src qx qy)))
                (Image_At h watermark
                   (int_add (X (Min wmBounds))
                      (qx - fst (placement srcBounds wmBounds opts)))
                   (int_add (Y (Min wmBounds))
                      (qy - snd (placement srcBounds wmBounds opts))))
                (normalizeOpacity (Opacity opts)))
      else rgbaModel (Image_At h src qx qy).
Proof.
  intros Hsrc Hwm Hint Halloc Hmin Hpx Hpy.
  destruct (placement_is_int srcBounds wmBounds opts Hpx Hpy) as [Hx Hy].
  exists (fresh (dom h)).
  exists (<[fresh (dom h) :=
              Apply_result h src watermark srcBounds wmBounds p opts]> h).
  exists (Apply_result h src watermark srcBounds wmBounds p opts).
  split; [apply Apply_returns; assumption|].
  split; [apply lookup_insert_eq|].
  unfold Apply_result. split.
  - rewrite Apply_loops_Rect. apply canvas_Rect. exact Halloc.
  - intros qx qy Hq.
    rewrite Apply_loops_At;
      [ | assumption | assumption | apply canvas_wf; assumption
        | rewrite canvas_Rect by assumption; exact Hq ].
    rewrite canvas_At by assumption.
    replace (covered srcBounds wmBounds
               (fst (placement srcBounds wmBounds opts))
               (snd (placement srcBounds wmBounds opts)) qx qy)
      with (overlaps wmBounds (fst (placement srcBounds wmBounds opts))
              (snd (placement srcBounds wmBounds opts)) qx qy);
      [reflexivity|].
    unfold covered, overlaps.
    pose proof (NewRGBA_Some _ _ Halloc) as (Hw & Hh & _ & _).
    pose proof (proj1 (Point_In_spec qx qy srcBounds) Hq) as [Hqx Hqy].
    rewrite (Dx_exact srcBounds qx), (Dy_exact srcBounds qy) by assumption.
    rewrite Hmin in *; cbn [X Y] in *.
    replace (0 <=? qx) with true by (symmetry; apply Z.leb_le; lia).
    replace (0 <=? qy) with true by (symmetry; apply Z.leb_le; lia).
    replace (qx <? X (Max srcBounds) - 0) with true
      by (symmetry; apply Z.ltb_lt; lia).
    replace (qy <? Y (Max srcBounds) - 0) with true
      by (symmetry; apply Z.ltb_lt; lia).
    rewrite !andb_true_r. reflexivity.
Qed.

Lemma Apply_clips_overlay_witness :
  exists d h' out,
    Apply heap1 (ImageRGBA 1%positive) (uniform (rect 0 0 3 3) blue)
      (mkOptions TopLeft f1 1 (-1)) = Returns (d, h') /\
    h' !! d = Some out /\
    RGBAAt out 0 0 = red /\ RGBAAt out 1 0 = blue /\
    RGBAAt out 0 1 = blue /\ RGBAAt out 1 1 = mkRGBA x00 x00 xff x80.
Proof.
  assert (Hsrc : Image_Bounds heap1 (ImageRGBA 1%positive)
                 = Some (rect 0 0 2 2)) by reflexivity.
  assert (Hwm : Image_Bounds heap1 (uniform (rect 0 0 3 3) blue)
                = Some (rect 0 0 3 3)) by reflexivity.
  assert (Hint : int_rect (rect 0 0 2 2))
    by (vm_compute; repeat split; discriminate).
  assert (Halloc : NewRGBA (rect 0 0 2 2)
                   = Some (buffer (rect 0 0 2 2)
                             [zeroRGBA; zeroRGBA; zeroRGBA; zeroRGBA]))
    by reflexivity.
  assert (Hpx : is_int 1) by (vm_compute; split; discriminate).
  assert (Hpy : is_int (-1)) by (vm_compute; split; discriminate).
  destruct (Apply_clips_overlay heap1 (ImageRGBA 1%positive)
              (uniform (rect 0 0 3 3) blue) (rect 0 0 2 2) (rect 0 0 3 3) _
              (mkOptions TopLeft f1 1 (-1)) Hsrc Hwm Hint Halloc eq_refl
              Hpx Hpy)
    as (d & h' & out & E & Hd & _ & Hpix).
  exists d, h', out. split; [exact E|]. split; [exact Hd|].
  rewrite (Hpix 0 0 eq_refl), (Hpix 1 0 eq_refl), (Hpix 0 1 eq_refl),
    (Hpix 1 1 eq_refl).
  vm_compute. repeat split; reflexivity.
Defined.





(** Whenever a stride of [Tile] is zero on a source that is not empty, the
    call does not return: the horizontal stride, [wmBounds.Dx() + spacing]. *)
Theorem Tile_zero_stride_diverges `{Arch} (h : heap) (src watermark : Image)
    (srcBounds wmBounds : Rectangle) (p : RGBAImage) (opacity : float64)
    (spacing : Z) :
  Image_Bounds h src = Some srcBounds ->
  Image_Bounds h watermark = Some wmBounds ->
  NewRGBA srcBounds = Some p ->
  0 < Dx srcBounds -> 0 < Dy srcBounds ->
  int_add (Dx wmBounds) spacing = 0 ->
  forall fuel, Tile fuel h src watermark opacity spacing = OutOfFuel.
Proof.
  intros Hsrc Hwm Halloc Hx Hy Hstride fuel.
  rewrite (Tile_outcome h src watermark srcBounds wmBounds p) by assumption.
  unfold Tile_result. rewrite Hstride.
  rewrite Tile_loops_stuck by assumption. reflexivity.
Qed.

Lemma Tile_zero_stride_diverges_witness :
  int_add (Dx (rect 0 0 2 1)) (-2) = 0 /\
  forall fuel,
    Tile fuel heap1 (ImageRGBA 1%positive) (uniform (rect 0 0 2 1) red)
      fhalf (-2) = OutOfFuel.
Proof.
  split; [reflexivity|].
  apply (Tile_zero_stride_diverges heap1 (ImageRGBA 1%positive)
           (uniform (rect 0 0 2 1) red) (rect 0 0 2 2) (rect 0 0 2 1)
           (buffer (rect 0 0 2 2) [zeroRGBA; zeroRGBA; zeroRGBA; zeroRGBA]));
    reflexivity.
Defined.

(* ===================================================================== *)
(** * The alpha channel of the output *)
(* ===================================================================== *)

(** On a pixel of an RGBA buffer the alpha that is stored for the blend is
    the pixel's alpha. *)
Lemma blendColors_stored_alpha `{Arch} (c : RGBA) (overlay : Color)
    (opacity : float64) :
  A (rgbaModel (blendColors (ColorRGBA c) overlay opacity)) = A c.
Proof.
  destruct (Z.eq_dec (alpha16 overlay) 0) as [Ha | Ha].
  - rewrite blendColors_transparent by exact Ha. reflexivity.
  - rewrite blendColors_visible by exact Ha. cbn [rgbaModel A].
    unfold alpha16; cbn [Color_RGBA]. rewrite spread_shiftr.
    apply uint8_u8z.
Qed.

Lemma same_alpha_refl (b : RGBAImage) : wf_buf b -> same_alpha b b.
Proof. intros Hwf. repeat split. exact Hwf. Qed.

Section Alpha.
Context `{Arch}.
Variable wmAt : Z -> Z -> Color.
Variables srcBounds wmBounds : Rectangle.
Variable opacity : float64.

Lemma composite_same_alpha (b0 b : RGBAImage) (dx dy wx wy : Z) :
  same_alpha b0 b ->
  same_alpha b0 (composite wmAt wmBounds opacity dx dy wx wy b).
Proof.
  intros (Hwf & HR & HA). unfold composite.
  split; [apply RGBA_Set_wf; exact Hwf|].
  split; [rewrite Rect_RGBA_Set; exact HR|].
  intros x y. rewrite <- HA.
  destruct (decide ((dx, dy) = (x, y))) as [E | N].
  - injection E as -> ->.
    destruct (Point_In (mkPoint x y) (Rect b)) eqn:Hp.
    + rewrite RGBAAt_Set_same by assumption.
      apply blendColors_stored_alpha.
    + rewrite RGBA_Set_outside by exact Hp. reflexivity.
  - rewrite RGBAAt_Set_other by assumption. reflexivity.
Qed.

Lemma Apply_loops_same_alpha (b : RGBAImage) (x y : Z) :
  wf_buf b ->
  same_alpha b (Apply_loops_buf wmAt srcBounds wmBounds opacity x y b).
Proof.
  intros Hwf. unfold Apply_loops_buf.
  apply (foldl_invariant (same_alpha b)); [|apply same_alpha_refl; exact Hwf].
  intros b' wy _ Hb'.
  apply (foldl_invariant (same_alpha b)); [|exact Hb'].
  intros b'' wx _ Hb''. unfold Apply_pixel_buf.
  destruct (_ || _); [exact Hb''|]. apply composite_same_alpha. exact Hb''.
Qed.

Lemma Tile_one_same_alpha (b0 b : RGBAImage) (x y : Z) :
  same_alpha b0 b ->
  same_alpha b0 (Tile_one_buf wmAt srcBounds wmBounds opacity x y b).
Proof.
  intros Hb. unfold Tile_one_buf.
  apply (foldl_invariant (same_alpha b0)); [|exact Hb].
  intros b' wy _ Hb'.
  apply (foldl_invariant (same_alpha b0)); [|exact Hb'].
  intros b'' wx _ Hb''. unfold Tile_pixel_buf.
  destruct (_ || _); [exact Hb''|]. apply composite_same_alpha. exact Hb''.
Qed.
End Alpha.

(** What holds before a loop and is kept by its body holds when the loop
    returns, whatever the stride. *)
Lemma for_stride_invariant {St : Type} (P : St -> Prop)
    (body : Z -> St -> option St) (limit stride : Z) :
  (forall i s s', P s -> body i s = Some s' -> P s') ->
  forall fuel i s s',
    P s -> for_stride fuel i limit stride body s = Some s' -> P s'.
Proof.
  intros Hbody. induction fuel as [|fuel IH]; intros i s s' HP;
    cbn [for_stride]; destruct (i <? limit); try discriminate;
    try (intros E; injection E as <-; exact HP).
  destruct (body i s) as [s1|] eqn:E1; [|discriminate].
  apply IH. exact (Hbody i s s1 HP E1).
Qed.

Lemma Tile_loops_same_alpha `{Arch} (wmAt : Z -> Z -> Color)
    (srcBounds wmBounds : Rectangle) (opacity : float64) (fuel : nat)
    (wmW wmH : Z) (b b' : RGBAImage) :
  wf_buf b ->
  Tile_loops_buf wmAt srcBounds wmBounds opacity fuel wmW wmH b = Some b' ->
  same_alpha b b'.
Proof.
  intros Hwf. unfold Tile_loops_buf.
  apply (for_stride_invariant (same_alpha b)); [|apply same_alpha_refl, Hwf].
  intros y s s' Hs.
  apply (for_stride_invariant (same_alpha b)); [|exact Hs].
  intros x t t' Ht E. injection E as <-.
  apply Tile_one_same_alpha. exact Ht.
Qed.

(** [Apply] returns an image with the bounds of the source in which every
    pixel has the alpha of the source's pixel, as the RGBA buffer holds it:
    no watermark, opacity or position makes the source more or less
    transparent. *)
Theorem Apply_keeps_bounds_and_alpha `{Arch} (h : heap)
    (src watermark : Image) (srcBounds wmBounds : Rectangle) (p : RGBAImage)
    (opts : Options) :
  Image_Bounds h src = Some srcBounds ->
  Image_Bounds h watermark = Some wmBounds ->
  int_rect srcBounds ->
  NewRGBA srcBounds = Some p ->
  exists d h' out,
    Apply h src watermark opts = Returns (d, h') /\
    h' !! d = Some out /\
    Rect out = srcBounds /\
    forall x y, Point_In (mkPoint x y) srcBounds = true ->
      A (RGBAAt out x y) = A (rgbaModel (Image_At h src x y)).
Proof.
  intros Hsrc Hwm Hint Halloc.
  do 3 eexists. split; [apply Apply_returns; eassumption|].
  split; [apply lookup_insert_eq|].
  unfold Apply_result.
  destruct (Apply_loops_same_alpha (Image_At h watermark) srcBounds wmBounds
              (normalizeOpacity (Opacity opts))
              (canvas (Image_At h src) srcBounds p)
              (fst (placement srcBounds wmBounds opts))
              (snd (placement srcBounds wmBounds opts))
              (canvas_wf _ _ _ Hint Halloc)) as (_ & HR & HA).
  split; [rewrite HR; apply canvas_Rect; exact Halloc|].
  intros x y Hp. rewrite HA, canvas_At by assumption. reflexivity.
Qed.

Lemma Apply_keeps_bounds_and_alpha_witness :
  exists d h' out,
    Apply heap1 (ImageRGBA 1%positive) (uniform (rect 0 0 3 3) blue)
      (mkOptions Center f075 0 0) = Returns (d, h') /\
    h' !! d = Some out /\
    Rect out = rect 0 0 2 2 /\
    A (RGBAAt out 1 1) = x80.
Proof.
  assert (Hsrc : Image_Bounds heap1 (ImageRGBA 1%positive)
                 = Some (rect 0 0 2 2)) by reflexivity.
  assert (Hwm : Image_Bounds heap1 (uniform (rect 0 0 3 3) blue)
                = Some (rect 0 0 3 3)) by reflexivity.
  assert (Hint : int_rect (rect 0 0 2 2))
    by (vm_compute; repeat split; discriminate).
  assert (Halloc : NewRGBA (rect 0 0 2 2)
                   = Some (buffer (rect 0 0 2 2)
                             [zeroRGBA; zeroRGBA; zeroRGBA; zeroRGBA]))
    by reflexivity.
  destruct (Apply_keeps_bounds_and_alpha heap1 (ImageRGBA 1%positive)
              (uniform (rect 0 0 3 3) blue) (rect 0 0 2 2) (rect 0 0 3 3) _
              (mkOptions Center f075 0 0) Hsrc Hwm Hint Halloc)
    as (d & h' & out & E & Hd & HR & HA).
  exists d, h', out. repeat split; try assumption.
  rewrite (HA 1 1 eq_refl). reflexivity.
Defined.

(** Every run of [Tile] that returns returns an image with the bounds of
    the source in which every pixel has the alpha of the source's pixel,
    whatever the watermark, the opacity (in range or not) and the spacing. *)
Theorem Tile_keeps_bounds_and_alpha `{Arch} (h : heap)
    (src watermark : Image) (srcBounds wmBounds : Rectangle) (p : RGBAImage)
    (opacity : float64) (spacing : Z) :
  Image_Bounds h src = Some srcBounds ->
  Image_Bounds h watermark = Some wmBounds ->
  int_rect srcBounds ->
  NewRGBA srcBounds = Some p ->
  forall fuel,
    Tile fuel h src watermark opacity spacing = OutOfFuel \/
    exists d h' out,
      Tile fuel h src watermark opacity spacing = Returns (d, h') /\
      h' !! d = Some out /\
      Rect out = srcBounds /\
      forall x y, Point_In (mkPoint x y) srcBounds = true ->
        A (RGBAAt out x y) = A (rgbaModel (Image_At h src x y)).
Proof.
  intros Hsrc Hwm Hint Halloc fuel.
  rewrite (Tile_outcome h src watermark srcBounds wmBounds p) by assumption.
  unfold Tile_result.
  destruct (Tile_loops_buf _ _ _ _ _ _ _ _) as [b|] eqn:E;
    [right | left; reflexivity].
  apply Tile_loops_same_alpha in E as (_ & HR & HA);
    [|apply canvas_wf; assumption].
  exists (fresh (dom h)), (<[fresh (dom h) := b]> h), b.
  split; [reflexivity|]. split; [apply lookup_insert_eq|].
  split; [rewrite HR; apply canvas_Rect; exact Halloc|].
  intros x y Hp. rewrite HA, canvas_At by assumption. reflexivity.
Qed.

Lemma Tile_keeps_bounds_and_alpha_witness :
  exists h' out,
    Tile 2 heap1 (ImageRGBA 1%positive) (uniform (rect 0 0 1 1) blue)
      (of_Z 7) 0 = Returns (2%positive, h') /\
    h' !! 2%positive = Some out /\
    A (RGBAAt out 1 1) = x80.
Proof.
  assert (Hsrc : Image_Bounds heap1 (ImageRGBA 1%positive)
                 = Some (rect 0 0 2 2)) by reflexivity.
  assert (Hwm : Image_Bounds heap1 (uniform (rect 0 0 1 1) blue)
                = Some (rect 0 0 1 1)) by reflexivity.
  assert (Hint : int_rect (rect 0 0 2 2))
    by (vm_compute; repeat split; discriminate).
  assert (Halloc : NewRGBA (rect 0 0 2 2)
                   = Some (buffer (rect 0 0 2 2)
                             [zeroRGBA; zeroRGBA; zeroRGBA; zeroRGBA]))
    by reflexivity.
  destruct (Tile_keeps_bounds_and_alpha heap1 (ImageRGBA 1%positive)
              (uniform (rect 0 0 1 1) blue) (rect 0 0 2 2) (rect 0 0 1 1) _
              (of_Z 7) 0 Hsrc Hwm Hint Halloc 2%nat)
    as [E | (d & h' & out & E & Hd & _ & HA)].
  - vm_compute in E. discriminate E.
  - assert (Hd2 : d = 2%positive)
      by (vm_compute in E; injection E as E1 _; symmetry; exact E1).
    subst d. exists h', out. split; [exact E|]. split; [exact Hd|].
    rewrite (HA 1 1 eq_refl). reflexivity.
Defined.

(* ===================================================================== *)
(** * [Apply] on a source of any origin *)
(* ===================================================================== *)

(** Whatever the origin of the source, [Apply] returns and every pixel
    [(qx, qy)] of the image it returns is the blend of the source's pixel
    with the watermark's pixel [(qx - x, qy - y)] when the point is
    [covered] (it lies under the watermark placed at the absolute point
    [(x, y)], and [0 <= qx < srcBounds.Dx()], [0 <= qy < srcBounds.Dy()]),
    and the source's pixel otherwise. *)
Theorem Apply_pixels `{Arch} (h : heap) (src watermark : Image)
    (srcBounds wmBounds : Rectangle) (p : RGBAImage) (opts : Options) :
  Image_Bounds h src = Some srcBounds ->
  Image_Bounds h watermark = Some wmBounds ->
  int_rect srcBounds ->
  NewRGBA srcBounds = Some p ->
  is_int (PaddingX opts) -> is_int (PaddingY opts) ->
  exists d h' out,
    Apply h src watermark opts = Returns (d, h') /\
    h' !! d = Some out /\
    Rect out = srcBounds /\
    forall qx qy, Point_In (mkPoint qx qy) srcBounds = true ->
      RGBAAt out qx qy =
      if covered srcBounds wmBounds
           (fst (placement srcBounds wmBounds opts))
           (snd (placement srcBounds wmBounds opts)) qx qy
      then rgbaModel
             (blendColors (ColorRGBA (rgbaModel (Image_At h src qx qy)))
                (Image_At h watermark
                   (int_add (X (Min wmBounds))
                      (qx - fst (placement srcBounds wmBounds opts)))
                   (int_add (Y (Min wmBounds))
                      (qy - snd (placement srcBounds wmBounds opts))))
                (normalizeOpacity (Opacity opts)))
      else rgbaModel (Image_At h src qx qy).
Proof.
  intros Hsrc Hwm Hint Halloc Hpx Hpy.
  destruct (placement_is_int srcBounds wmBounds opts Hpx Hpy) as [Hx Hy].
  exists (fresh (dom h)).
  exists (<[fresh (dom h) :=
              Apply_result h src watermark srcBounds wmBounds p opts]> h).
  exists (Apply_result h src watermark srcBounds wmBounds p opts).
  split; [apply Apply_returns; assumption|].
  split; [apply lookup_insert_eq|].
  unfold Apply_result. split.
  - rewrite Apply_loops_Rect. apply canvas_Rect. exact Halloc.
  - intros qx qy Hq.
    rewrite Apply_loops_At;
      [ | assumption | assumption | apply canvas_wf; assumption
        | rewrite canvas_Rect by assumption; exact Hq ].
    rewrite canvas_At by assumption. reflexivity.
Qed.

Lemma Apply_pixels_witness :
  exists d h' out,
    Apply ∅ (uniform (rect 1 1 3 3) red) (uniform (rect 0 0 1 1) blue)
      (mkOptions TopLeft f1 1 1) = Returns (d, h') /\
    h' !! d = Some out /\
    RGBAAt out 1 1 = blue /\ RGBAAt out 2 1 = red /\
    RGBAAt out 1 2 = red /\ RGBAAt out 2 2 = red.
Proof.
  assert (Hsrc : Image_Bounds ∅ (uniform (rect 1 1 3 3) red)
                 = Some (rect 1 1 3 3)) by reflexivity.
  assert (Hwm : Image_Bounds ∅ (uniform (rect 0 0 1 1) blue)
                = Some (rect 0 0 1 1)) by reflexivity.
  assert (Hint : int_rect (rect 1 1 3 3))
    by (vm_compute; repeat split; discriminate).
  assert (Halloc : NewRGBA (rect 1 1 3 3)
                   = Some (buffer (rect 1 1 3 3)
                             [zeroRGBA; zeroRGBA; zeroRGBA; zeroRGBA]))
    by reflexivity.
  assert (Hpx : is_int 1) by (vm_compute; split; discriminate).
  destruct (Apply_pixels ∅ (uniform (rect 1 1 3 3) red)
              (uniform (rect 0 0 1 1) blue) (rect 1 1 3 3) (rect 0 0 1 1) _
              (mkOptions TopLeft f1 1 1) Hsrc Hwm Hint Halloc Hpx Hpx)
    as (d & h' & out & E & Hd & _ & HA).
  exists d, h', out. split; [exact E|]. split; [exact Hd|].
  rewrite (HA 1 1 eq_refl), (HA 2 1 eq_refl), (HA 1 2 eq_refl),
    (HA 2 2 eq_refl).
  repeat split; vm_compute; reflexivity.
Defined.

(* ===================================================================== *)
(** * A watermark without pixels *)
(* ===================================================================== *)

Section EmptyOverlay.
Context `{Arch}.
Variable wmAt : Z -> Z -> Color.
Variables srcBounds wmBounds : Rectangle.
Hypothesis wm_empty : Dx wmBounds <= 0 \/ Dy wmBounds <= 0.

Lemma empty_overlay_loops {St : Type} (f : Z -> Z -> St -> St) (s : St) :
  foldl (fun s wy => foldl (fun s wx => f wy wx s) s (seqZ 0 (Dx wmBounds)))
    s (seqZ 0 (Dy wmBounds)) = s.
Proof.
  destruct wm_empty as [Hw | Hh].
  - apply foldl_fixed. intros wy _.
    rewrite (seqZ_nil 0 (Dx wmBounds)) by exact Hw. reflexivity.
  - rewrite (seqZ_nil 0 (Dy wmBounds)) by exact Hh. reflexivity.
Qed.

Lemma Apply_loops_empty_overlay (opacity : float64) (x y : Z)
    (b : RGBAImage) :
  Apply_loops_buf wmAt srcBounds wmBounds opacity x y b = b.
Proof.
  unfold Apply_loops_buf.
  apply (empty_overlay_loops
           (fun wy wx b =>
              Apply_pixel_buf wmAt srcBounds wmBounds opacity x y wy wx b)).
Qed.

Lemma Tile_one_empty_overlay (opacity : float64) (x y : Z) (b : RGBAImage) :
  Tile_one_buf wmAt srcBounds wmBounds opacity x y b = b.
Proof.
  unfold Tile_one_buf.
  apply (empty_overlay_loops
           (fun wy wx b =>
              Tile_pixel_buf wmAt srcBounds wmBounds opacity x y wy wx b)).
Qed.
End EmptyOverlay.





(* ===================================================================== *)
(** * Options outside the documented values *)
(* ===================================================================== *)

Lemma placement_unlisted (srcBounds wmBounds : Rectangle)
    (position : Position) (opacity : float64) (paddingX paddingY : Z) :
  position < Center \/ BottomRight < position ->
  placement srcBounds wmBounds
    (mkOptions position opacity paddingX paddingY) = (0, 0).
Proof.
  unfold placement, Center, TopLeft, TopRight, BottomLeft, BottomRight.
  intros Hpos. cbn [OptPosition].
  destruct (Z.eqb_spec position 0) as [E | _]; [exfalso; lia|].
  destruct (Z.eqb_spec position 1) as [E | _]; [exfalso; lia|].
  destruct (Z.eqb_spec position 2) as [E | _]; [exfalso; lia|].
  destruct (Z.eqb_spec position 3) as [E | _]; [exfalso; lia|].
  destruct (Z.eqb_spec position 4) as [E | _]; [exfalso; lia|].
  reflexivity.
Qed.

(** A [Position] that is none of the five constants is not an error:
    [Apply] leaves [x] and [y] at zero, so that it does what it does for
    [TopLeft] without padding. *)
Theorem Apply_unlisted_position `{Arch} (h : heap) (src watermark : Image)
    (position : Position) (opacity : float64) (paddingX paddingY : Z) :
  position < Center \/ BottomRight < position ->
  Apply h src watermark (mkOptions position opacity paddingX paddingY) =
  Apply h src watermark (mkOptions TopLeft opacity 0 0).
Proof.
  intros Hpos. unfold Apply.
  destruct (Image_Bounds h src) as [srcBounds|]; [|reflexivity].
  destruct (Image_Bounds h watermark) as [wmBounds|]; [|reflexivity].
  destruct (NewRGBA srcBounds) as [p|]; [|reflexivity].
  rewrite placement_unlisted by exact Hpos. reflexivity.
Qed.

Lemma Apply_unlisted_position_witness :
  Apply heap1 (ImageRGBA 1%positive) (uniform (rect 0 0 1 1) blue)
    (mkOptions 7 f1 1 1) =
  Apply heap1 (ImageRGBA 1%positive) (uniform (rect 0 0 1 1) blue)
    (mkOptions TopLeft f1 0 0).
Proof.
  apply (Apply_unlisted_position heap1 (ImageRGBA 1%positive)
           (uniform (rect 0 0 1 1) blue) 7 f1 1 1).
  right. reflexivity.
Defined.

(** The comparisons of the normalization, case by case. *)
Lemma f1_eq : f1 = S754_finite false 4503599627370496 (-52).
Proof. reflexivity. Qed.

Lemma fleb_f0_false (o : float64) :
  o <> S754_nan -> fleb o f0 = false -> fltb f0 o = true.
Proof.
  intros Hnan. unfold fleb, fltb, SFleb, SFltb, f0.
  destruct o as [s | s | | s m e]; try congruence;
    destruct s; cbn [SFcompare]; congruence.
Qed.

Lemma fltb_f1_false (o : float64) :
  o <> S754_nan -> fltb f1 o = false -> fleb o f1 = true.
Proof.
  intros Hnan. rewrite f1_eq. unfold fltb, fleb, SFltb, SFleb.
  destruct o as [s | s | | s m e]; try congruence;
    try (destruct s; cbn [SFcompare]; congruence).
  destruct s; [cbn [SFcompare]; congruence|].
  cbn [SFcompare].
  rewrite (Z.compare_antisym e (-52)).
  destruct (e ?= -52) eqn:Ee; cbn [CompOpp]; try congruence.
  pose proof (Pos.compare_cont_antisym m 4503599627370496 Eq) as HA.
  change (CompOpp Eq) with Eq in HA. rewrite <- HA.
  destruct (Pos.compare_cont Eq m 4503599627370496); cbn; congruence.
Qed.

Lemma fltb_fleb_false (a b : float64) : fltb a b = true -> fleb b a = false.
Proof.
  unfold fltb, fleb, SFltb, SFleb.
  destruct a as [sa | sa | | sa ma ea], b as [sb | sb | | sb mb eb];
    cbn [SFcompare]; try congruence;
    try (destruct sa; congruence); try (destruct sb; congruence);
    try (destruct sa, sb; congruence).
  destruct sa, sb; try congruence.
  - rewrite (Z.compare_antisym ea eb).
    destruct (ea ?= eb); cbn [CompOpp]; try congruence.
    pose proof (Pos.compare_cont_antisym ma mb Eq) as HA.
    change (CompOpp Eq) with Eq in HA. rewrite <- HA.
    destruct (Pos.compare_cont Eq ma mb); cbn; congruence.
  - rewrite (Z.compare_antisym ea eb).
    destruct (ea ?= eb); cbn [CompOpp]; try congruence.
    pose proof (Pos.compare_cont_antisym ma mb Eq) as HA.
    change (CompOpp Eq) with Eq in HA. rewrite <- HA.
    destruct (Pos.compare_cont Eq ma mb); cbn; congruence.
Qed.

Lemma fleb_fltb_false (a b : float64) : fleb a b = true -> fltb b a = false.
Proof.
  intros Hle. destruct (fltb b a) eqn:E; [|reflexivity].
  apply fltb_fleb_false in E. congruence.
Qed.

Lemma normalizeOpacity_bounds (opacity : float64) :
  opacity <> S754_nan ->
  fltb f0 (normalizeOpacity opacity) = true /\
  fleb (normalizeOpacity opacity) f1 = true.
Proof.
  intros Hnan. unfold normalizeOpacity.
  destruct (fleb opacity f0) eqn:E0.
  - vm_compute. split; reflexivity.
  - destruct (fltb f1 opacity) eqn:E1.
    + vm_compute. split; reflexivity.
    + split; [apply fleb_f0_false | apply fltb_f1_false]; assumption.
Qed.

Lemma normalizeOpacity_idem (opacity : float64) :
  normalizeOpacity (normalizeOpacity opacity) = normalizeOpacity opacity.
Proof.
  assert (opacity = S754_nan \/ opacity <> S754_nan) as [-> | Hnan]
    by (destruct opacity; first [left; reflexivity | right; discriminate]);
    [reflexivity|].
  destruct (normalizeOpacity_bounds opacity Hnan) as [H0 H1].
  apply fltb_fleb_false in H0. apply fleb_fltb_false in H1.
  set (v := normalizeOpacity opacity) in *.
  unfold normalizeOpacity. rewrite H0, H1. reflexivity.
Qed.

(** The opacity [Apply] renders with lies in (0, 1] whenever the opacity it
    is given is a number; a NaN passes both tests and is used as it is.
    Normalizing twice is normalizing once. *)
Theorem normalizeOpacity_range (opacity : float64) :
  (opacity <> S754_nan ->
   fltb f0 (normalizeOpacity opacity) = true /\
   fleb (normalizeOpacity opacity) f1 = true) /\
  normalizeOpacity S754_nan = S754_nan /\
  normalizeOpacity (normalizeOpacity opacity) = normalizeOpacity opacity.
Proof.
  split; [apply normalizeOpacity_bounds|]. split; [reflexivity|].
  apply normalizeOpacity_idem.
Qed.

(** [Apply] depends on the opacity through its normal form only: the call
    with the opacity replaced by the normalized one is the same call. *)
Theorem Apply_normalized_opacity `{Arch} (h : heap) (src watermark : Image)
    (opts : Options) :
  Apply h src watermark
    (with_opacity opts (normalizeOpacity (Opacity opts))) =
  Apply h src watermark opts.
Proof.
  unfold Apply, with_opacity.
  destruct (Image_Bounds h src) as [srcBounds|]; [|reflexivity].
  destruct (Image_Bounds h watermark) as [wmBounds|]; [|reflexivity].
  destruct (NewRGBA srcBounds) as [p|]; [|reflexivity].
  cbn [Opacity]. rewrite normalizeOpacity_idem.
  unfold placement. cbn [OptPosition PaddingX PaddingY]. reflexivity.
Qed.

(* ===================================================================== *)
(** * Blending an opaque overlay *)
(* ===================================================================== *)

Lemma trunc_is_uint8 `{Arch} (f : float64) (z : Z) :
  trunc_is f z = true -> 0 <= z <= 255 -> float_to_uint8 f = uint8 z.
Proof.
  unfold trunc_is. intros Ht Hz.
  destruct (trunc f) as [z'|] eqn:E; [|discriminate].
  apply Z.eqb_eq in Ht. subst z'.
  rewrite <- (uint8_u8z (float_to_uint8 f)).
  rewrite (float_to_uint8_trunc f z E Hz). reflexivity.
Qed.

(** With weight 1 the blend of two 8-bit channel values is the overlay's,
    with weight 0.5 it is their mean, rounded down: checked on every
    value, and on every pair of values. *)
Lemma mix_one_table :
  all_from 256 0 (fun o => trunc_is (fadd f0 (fmul (of_Z o) f1)) o) = true.
Proof. vm_cast_no_check (eq_refl true). Qed.

Lemma mix_half_table :
  all_from 256 0 (fun b =>
    let half_b := fmul (of_Z b) fhalf in
    all_from 256 0 (fun o =>
      trunc_is (fadd half_b (fmul (of_Z o) fhalf)) ((b + o) / 2))) = true.
Proof. vm_cast_no_check (eq_refl true). Qed.

Lemma mix_one `{Arch} (b o : Z) :
  0 <= b <= 255 -> 0 <= o <= 255 -> float_to_uint8 (mix b o f1) = uint8 o.
Proof.
  intros Hb Ho. apply trunc_is_uint8; [|exact Ho].
  unfold mix. change (fsub f1 f1) with f0.
  assert (fmul (of_Z b) f0 = f0) as ->.
  { apply is_f0_eq. apply (all_from_spec _ _ _ fmul_zero_table). lia. }
  apply (all_from_spec _ _ _ mix_one_table). lia.
Qed.

Lemma mix_half `{Arch} (b o : Z) :
  0 <= b <= 255 -> 0 <= o <= 255 ->
  float_to_uint8 (mix b o fhalf) = uint8 ((b + o) / 2).
Proof.
  intros Hb Ho. apply trunc_is_uint8.
  - unfold mix. change (fsub f1 fhalf) with fhalf.
    pose proof (all_from_spec _ _ _ mix_half_table b ltac:(lia)) as Hrow.
    cbv beta zeta in Hrow. apply (all_from_spec _ _ _ Hrow). lia.
  - split; [apply Z.div_pos; lia | apply Z.div_le_upper_bound; lia].
Qed.

Lemma effective_alpha_opaque (overlay : Color) :
  alpha16 overlay = 65535 ->
  effective_alpha overlay f1 = f1 /\ effective_alpha overlay fhalf = fhalf.
Proof.
  intros Ha. unfold effective_alpha. rewrite Ha.
  split; vm_compute; reflexivity.
Qed.

(** An opaque overlay (alpha 65535 on the 16-bit scale) at opacity 1
    replaces the colour of the base pixel by its own and at opacity 0.5
    gives the mean of the two, channel by channel on the 8-bit values and
    rounded down; the alpha stays the base pixel's in both. *)
Theorem blendColors_opaque_overlay `{Arch} (base overlay : Color) :
  alpha16 overlay = 65535 ->
  blendColors base overlay f1 =
    ColorRGBA (mkRGBA (uint8 (Z.shiftr (red16 overlay) 8))
                      (uint8 (Z.shiftr (green16 overlay) 8))
                      (uint8 (Z.shiftr (blue16 overlay) 8))
                      (uint8 (Z.shiftr (alpha16 base) 8))) /\
  blendColors base overlay fhalf =
    ColorRGBA
      (mkRGBA
         (uint8 ((Z.shiftr (red16 base) 8 + Z.shiftr (red16 overlay) 8) / 2))
         (uint8 ((Z.shiftr (green16 base) 8
                  + Z.shiftr (green16 overlay) 8) / 2))
         (uint8 ((Z.shiftr (blue16 base) 8
                  + Z.shiftr (blue16 overlay) 8) / 2))
         (uint8 (Z.shiftr (alpha16 base) 8))).
Proof.
  intros Ha.
  destruct (effective_alpha_opaque overlay Ha) as [E1 Eh].
  rewrite !blendColors_visible by lia. rewrite E1, Eh.
  rewrite !blendChannel_mix, !Z.shiftr_div_pow2 by lia.
  change (2 ^ 8) with 256.
  pose proof (Color_RGBA_range base) as (Hbr & Hbg & Hbb & _).
  pose proof (Color_RGBA_range overlay) as (Hor & Hog & Hob & _).
  apply chan16_high_byte in Hbr, Hbg, Hbb, Hor, Hog, Hob.
  rewrite !mix_one, !mix_half by assumption.
  split; reflexivity.
Qed.

Lemma blendColors_opaque_overlay_witness :
  blendColors (ColorRGBA red) (ColorGray x40) f1
    = ColorRGBA (mkRGBA x40 x40 x40 xff) /\
  blendColors (ColorRGBA red) (ColorGray x40) fhalf
    = ColorRGBA (mkRGBA x9f x20 x20 xff).
Proof.
  destruct (blendColors_opaque_overlay (ColorRGBA red) (ColorGray x40)
              eq_refl) as [E1 Eh].
  rewrite E1, Eh. split; vm_compute; reflexivity.
Defined.

(* ===================================================================== *)
(** * The tiles of [Tile] *)
(* ===================================================================== *)

Lemma foldl_ext_in {St I : Type} (f g : St -> I -> St) (l : list I) :
  (forall s i, i ∈ l -> f s i = g s i) ->
  forall s, foldl f s l = foldl g s l.
Proof.
  induction l as [|i l IH]; intros Hfg s; cbn [foldl]; [reflexivity|].
  rewrite Hfg by (apply elem_of_cons; auto).
  apply IH. intros s' j Hj. apply Hfg. apply elem_of_cons. auto.
Qed.

(** A tile whose origin is not negative and whose pixels' coordinates do
    not overflow is composited as [Apply] composites a watermark placed at
    that origin. *)
Lemma Tile_one_Apply_loops `{Arch} (wmAt : Z -> Z -> Color)
    (srcBounds wmBounds : Rectangle) (opacity : float64) (x y : Z)
    (b : RGBAImage) :
  0 <= x -> 0 <= y ->
  x + Dx wmBounds <= maxInt + 1 -> y + Dy wmBounds <= maxInt + 1 ->
  Tile_one_buf wmAt srcBounds wmBounds opacity x y b =
  Apply_loops_buf wmAt srcBounds wmBounds opacity x y b.
Proof.
  intros Hx Hy Hxw Hyh. unfold Tile_one_buf, Apply_loops_buf.
  apply foldl_ext_in. intros s wy Hwy.
  apply foldl_ext_in. intros s' wx Hwx.
  apply elem_of_seqZ in Hwy, Hwx.
  unfold Tile_pixel_buf, Apply_pixel_buf.
  assert (Ex : int_add x wx = x + wx)
    by (apply int_wrap_id; unfold is_int, minInt, maxInt in *; lia).
  assert (Ey : int_add y wy = y + wy)
    by (apply int_wrap_id; unfold is_int, minInt, maxInt in *; lia).
  rewrite Ex, Ey.
  replace (x + wx <? 0) with false by (symmetry; apply Z.ltb_ge; lia).
  replace (y + wy <? 0) with false by (symmetry; apply Z.ltb_ge; lia).
  cbn [orb]. rewrite orb_false_r. reflexivity.
Qed.

(** A loop with a positive stride that cannot overflow returns, with an
    invariant that follows the counter. *)
Lemma for_stride_indexed {St : Type} (P : Z -> St -> Prop)
    (body : Z -> St -> option St) (limit stride : Z) :
  0 < stride -> limit + stride <= maxInt + 1 ->
  (forall i s, 0 <= i < limit -> P i s ->
     exists s', body i s = Some s' /\ P (i + stride) s') ->
  forall fuel i s,
    0 <= i -> (Z.to_nat (limit - i) <= fuel)%nat -> P i s ->
    exists s' i',
      for_stride fuel i limit stride body s = Some s' /\
      limit <= i' /\ P i' s'.
Proof.
  intros Hs Hov Hbody.
  induction fuel as [|fuel IH]; intros i s Hi Hfuel HP; cbn [for_stride];
    destruct (i <? limit) eqn:Hlt;
    try (apply Z.ltb_ge in Hlt; exists s, i; repeat split; assumption).
  - apply Z.ltb_lt in Hlt. lia.
  - apply Z.ltb_lt in Hlt.
    destruct (Hbody i s (conj Hi Hlt) HP) as (s1 & E1 & HP1). rewrite E1.
    assert (Ei : int_add i stride = i + stride)
      by (apply int_wrap_id; unfold is_int, minInt, maxInt in *; lia).
    rewrite Ei. apply IH; [lia | lia | exact HP1].
Qed.

Lemma mod_in_tile (q x w : Z) :
  0 < w -> (w | x) -> x <= q < x + w -> q mod w = q - x.
Proof.
  intros Hw [k ->] Hq. symmetry.
  apply (Z.mod_unique_pos q w k (q - k * w)); lia.
Qed.

Ltac bools :=
  repeat match goal with
  | H : _ && _ = true |- _ => apply andb_true_iff in H as [? ?]
  | H : (_ <=? _) = true |- _ => apply Z.leb_le in H
  | H : (_ <? _) = true |- _ => apply Z.ltb_lt in H
  end.

Ltac prove_bools :=
  repeat (apply andb_true_iff; split);
  first [apply Z.leb_le | apply Z.ltb_lt]; lia.

Section Tiles.
Context `{Arch}.
Variable wmAt : Z -> Z -> Color.
Variables srcBounds wmBounds : Rectangle.
Variable opacity : float64.
Variables wmW wmH : Z.
Variable b0 : RGBAImage.
Hypothesis wmW_pos : 0 < wmW.
Hypothesis wmH_pos : 0 < wmH.
Hypothesis wmW_apart : Dx wmBounds <= wmW.
Hypothesis wmH_apart : Dy wmBounds <= wmH.
Hypothesis wmW_fits : Dx srcBounds + wmW <= maxInt + 1.
Hypothesis wmH_fits : Dy srcBounds + wmH <= maxInt + 1.

Local Abbreviation done_ := (tiles_done wmAt srcBounds wmBounds opacity
                              wmW wmH b0).

(** One tile more in the row that starts at [y]. *)
Lemma Tile_one_done (x y : Z) (s : RGBAImage) :
  (wmW | x) -> (wmH | y) ->
  0 <= x < Dx srcBounds -> 0 <= y < Dy srcBounds ->
  done_ (fun qx qy => (qy <? y) || ((qy <? y + wmH) && (qx <? x))) s ->
  done_ (fun qx qy => (qy <? y) || ((qy <? y + wmH) && (qx <? x + wmW)))
    (Tile_one_buf wmAt srcBounds wmBounds opacity x y s).
Proof.
  intros Dvx Dvy Hx Hy (Hwf & HR & HA).
  assert (Ix : is_int x) by (unfold is_int, minInt, maxInt in *; lia).
  assert (Iy : is_int y) by (unfold is_int, minInt, maxInt in *; lia).
  rewrite Tile_one_Apply_loops by lia.
  split; [|split].
  - destruct (Apply_loops_same_alpha wmAt srcBounds wmBounds opacity s x y
                Hwf) as (Hwf' & _). exact Hwf'.
  - rewrite Apply_loops_Rect. exact HR.
  - intros qx qy Hq.
    rewrite Apply_loops_At by (try assumption; rewrite HR; exact Hq).
    rewrite (HA qx qy Hq).
    destruct (covered srcBounds wmBounds x y qx qy) eqn:Ec.
    + unfold covered in Ec. bools.
      assert (Emx : qx mod wmW = qx - x) by (apply mod_in_tile; [assumption..|lia]).
      assert (Emy : qy mod wmH = qy - y) by (apply mod_in_tile; [assumption..|lia]).
      replace (tiled srcBounds wmBounds wmW wmH qx qy) with true
        by (symmetry; unfold tiled; rewrite Emx, Emy; prove_bools).
      replace (qy <? y) with false by (symmetry; apply Z.ltb_ge; lia).
      replace (qx <? x) with false by (symmetry; apply Z.ltb_ge; lia).
      replace (qy <? y + wmH) with true by (symmetry; apply Z.ltb_lt; lia).
      replace (qx <? x + wmW) with true by (symmetry; apply Z.ltb_lt; lia).
      cbn [andb orb]. unfold tile_blend. rewrite Emx, Emy. reflexivity.
    + destruct (tiled srcBounds wmBounds wmW wmH qx qy) eqn:Et;
        [|reflexivity].
      cbn [andb]. unfold tiled in Et. bools.
      destruct (Z.ltb_spec qy y); cbn [orb]; [reflexivity|].
      destruct (Z.ltb_spec qy (y + wmH)); cbn [andb]; [|reflexivity].
      destruct (Z.ltb_spec qx x), (Z.ltb_spec qx (x + wmW));
        try reflexivity; try lia.
      exfalso.
      rewrite (mod_in_tile qx x wmW) in * by (try assumption; lia).
      rewrite (mod_in_tile qy y wmH) in * by (try assumption; lia).
      enough (covered srcBounds wmBounds x y qx qy = true) by congruence.
      unfold covered. prove_bools.
Qed.

(** One row of tiles more. *)
Lemma Tile_row_done (fuel : nat) (y : Z) (s : RGBAImage) :
  (Z.to_nat (Dx srcBounds) <= fuel)%nat ->
  (wmH | y) -> 0 <= y < Dy srcBounds ->
  done_ (fun qx qy => qy <? y) s ->
  exists s',
    for_stride fuel 0 (Dx srcBounds) wmW
      (fun x b => Some (Tile_one_buf wmAt srcBounds wmBounds opacity x y b))
      s = Some s' /\
    done_ (fun qx qy => qy <? y + wmH) s'.
Proof.
  intros Hfuel Dvy Hy Hs.
  destruct (for_stride_indexed
              (fun x s =>
                 (wmW | x) /\
                 done_ (fun qx qy =>
                          (qy <? y) || ((qy <? y + wmH) && (qx <? x))) s)
              (fun x b =>
                 Some (Tile_one_buf wmAt srcBounds wmBounds opacity x y b))
              (Dx srcBounds) wmW wmW_pos wmW_fits)
    with (fuel := fuel) (i := 0) (s := s) as (s' & x' & E & Hx' & Dvx & Hs').
  - intros x t Hx [Dvx Ht]. eexists. split; [reflexivity|].
    split; [apply Z.divide_add_r; [exact Dvx | apply Z.divide_refl]|].
    apply Tile_one_done; assumption.
  - lia.
  - lia.
  - split; [apply Z.divide_0_r|].
    destruct Hs as (Hwf & HR & HA). split; [exact Hwf|]. split; [exact HR|].
    intros qx qy Hq. rewrite (HA qx qy Hq).
    destruct (tiled srcBounds wmBounds wmW wmH qx qy) eqn:Et;
      [|reflexivity].
    unfold tiled in Et. bools.
    replace (qx <? 0) with false by (symmetry; apply Z.ltb_ge; lia).
    rewrite andb_false_r, orb_false_r. reflexivity.
  - exists s'. split; [exact E|].
    destruct Hs' as (Hwf & HR & HA). split; [exact Hwf|]. split; [exact HR|].
    intros qx qy Hq. rewrite (HA qx qy Hq).
    destruct (tiled srcBounds wmBounds wmW wmH qx qy) eqn:Et;
      [|reflexivity].
    unfold tiled in Et. bools.
    replace (qx <? x') with true by (symmetry; apply Z.ltb_lt; lia).
    rewrite andb_true_r.
    destruct (Z.ltb_spec qy y), (Z.ltb_spec qy (y + wmH));
      try reflexivity; lia.
Qed.

(** The loops of [Tile] return the buffer with every tile composited. *)
Lemma Tile_loops_done (fuel : nat) :
  wf_buf b0 ->
  (Tile_fuel srcBounds <= fuel)%nat ->
  exists s',
    Tile_loops_buf wmAt srcBounds wmBounds opacity fuel wmW wmH b0 = Some s'
    /\ done_ (fun qx qy => true) s'.
Proof.
  intros Hwf Hfuel. unfold Tile_fuel in Hfuel. unfold Tile_loops_buf.
  destruct (for_stride_indexed
              (fun y s => (wmH | y) /\ done_ (fun qx qy => qy <? y) s)
              (fun y b =>
                 for_stride fuel 0 (Dx srcBounds) wmW
                   (fun x b =>
                      Some (Tile_one_buf wmAt srcBounds wmBounds opacity
                              x y b)) b)
              (Dy srcBounds) wmH wmH_pos wmH_fits)
    with (fuel := fuel) (i := 0) (s := b0) as (s' & y' & E & Hy' & Dvy & Hs').
  - intros y t Hy [Dvy Ht].
    destruct (Tile_row_done fuel y t) as (t' & Et & Ht');
      [lia | assumption.. |].
    exists t'. split; [exact Et|].
    split; [apply Z.divide_add_r; [exact Dvy | apply Z.divide_refl]|].
    exact Ht'.
  - lia.
  - lia.
  - split; [apply Z.divide_0_r|].
    split; [exact Hwf|]. split; [reflexivity|].
    intros qx qy Hq.
    destruct (tiled srcBounds wmBounds wmW wmH qx qy) eqn:Et;
      [|reflexivity].
    unfold tiled in Et. bools.
    replace (qy <? 0) with false by (symmetry; apply Z.ltb_ge; lia).
    reflexivity.
  - exists s'. split; [exact E|].
    destruct Hs' as (Hwf' & HR & HA). split; [exact Hwf'|].
    split; [exact HR|].
    intros qx qy Hq. rewrite (HA qx qy Hq).
    destruct (tiled srcBounds wmBounds wmW wmH qx qy) eqn:Et;
      [|reflexivity].
    unfold tiled in Et. bools.
    replace (qy <? y') with true by (symmetry; apply Z.ltb_lt; lia).
    reflexivity.
Qed.
End Tiles.

(** With positive strides that are at least the watermark's width and
    height (no negative spacing), [Tile] returns, and every pixel of the
    image it returns is the source's pixel blended once, with the opacity as
    it was given, with the watermark's pixel
    [(qx mod strideX, qy mod strideY)] when the point is [tiled] (that
    pixel exists, and [0 <= qx < srcBounds.Dx()],
    [0 <= qy < srcBounds.Dy()]), and the source's pixel otherwise. *)
Theorem Tile_pixels `{Arch} (h : heap) (src watermark : Image)
    (srcBounds wmBounds : Rectangle) (p : RGBAImage) (opacity : float64)
    (spacing : Z) :
  Image_Bounds h src = Some srcBounds ->
  Image_Bounds h watermark = Some wmBounds ->
  int_rect srcBounds ->
  NewRGBA srcBounds = Some p ->
  0 < int_add (Dx wmBounds) spacing ->
  0 < int_add (Dy wmBounds) spacing ->
  Dx wmBounds <= int_add (Dx wmBounds) spacing ->
  Dy wmBounds <= int_add (Dy wmBounds) spacing ->
  Dx srcBounds + int_add (Dx wmBounds) spacing <= maxInt + 1 ->
  Dy srcBounds + int_add (Dy wmBounds) spacing <= maxInt + 1 ->
  forall fuel, (Tile_fuel srcBounds <= fuel)%nat ->
    exists d h' out,
      Tile fuel h src watermark opacity spacing = Returns (d, h') /\
      h' !! d = Some out /\
      Rect out = srcBounds /\
      forall qx qy, Point_In (mkPoint qx qy) srcBounds = true ->
        RGBAAt out qx qy =
        if tiled srcBounds wmBounds (int_add (Dx wmBounds) spacing)
             (int_add (Dy wmBounds) spacing) qx qy
        then tile_blend (Image_At h watermark) wmBounds opacity
               (int_add (Dx wmBounds) spacing)
               (int_add (Dy wmBounds) spacing)
               (rgbaModel (Image_At h src qx qy)) qx qy
        else rgbaModel (Image_At h src qx qy).
Proof.
  intros Hsrc Hwm Hint Halloc HW HH HaW HaH HfW HfH fuel Hfuel.
  rewrite (Tile_outcome h src watermark srcBounds wmBounds p) by assumption.
  unfold Tile_result.
  destruct (Tile_loops_done (Image_At h watermark) srcBounds wmBounds opacity
              (int_add (Dx wmBounds) spacing) (int_add (Dy wmBounds) spacing)
              (canvas (Image_At h src) srcBounds p)
              HW HH HaW HaH HfW HfH fuel
              (canvas_wf _ _ _ Hint Halloc) Hfuel)
    as (out & E & _ & HR & HA).
  rewrite E. exists (fresh (dom h)), (<[fresh (dom h) := out]> h), out.
  split; [reflexivity|]. split; [apply lookup_insert_eq|].
  rewrite canvas_Rect in HR by exact Halloc. split; [exact HR|].
  intros qx qy Hq.
  rewrite HA by (rewrite canvas_Rect by exact Halloc; exact Hq).
  rewrite andb_true_r, canvas_At by assumption. reflexivity.
Qed.

Lemma Tile_pixels_witness :
  exists h' out,
    Tile 2 heap1 (ImageRGBA 1%positive) (uniform (rect 0 0 1 1) blue) f1 1
      = Returns (2%positive, h') /\
    h' !! 2%positive = Some out /\
    RGBAAt out 0 0 = blue /\ RGBAAt out 1 0 = white /\
    RGBAAt out 0 1 = blue /\ RGBAAt out 1 1 = mkRGBA x10 x20 x30 x80.
Proof.
  assert (Hsrc : Image_Bounds heap1 (ImageRGBA 1%positive)
                 = Some (rect 0 0 2 2)) by reflexivity.
  assert (Hwm : Image_Bounds heap1 (uniform (rect 0 0 1 1) blue)
                = Some (rect 0 0 1 1)) by reflexivity.
  assert (Hint : int_rect (rect 0 0 2 2))
    by (vm_compute; repeat split; discriminate).
  assert (Halloc : NewRGBA (rect 0 0 2 2)
                   = Some (buffer (rect 0 0 2 2)
                             [zeroRGBA; zeroRGBA; zeroRGBA; zeroRGBA]))
    by reflexivity.
  assert (HW : 0 < int_add (Dx (rect 0 0 1 1)) 1) by reflexivity.
  assert (HaW : Dx (rect 0 0 1 1) <= int_add (Dx (rect 0 0 1 1)) 1)
    by (vm_compute; discriminate).
  assert (HfW : Dx (rect 0 0 2 2) + int_add (Dx (rect 0 0 1 1)) 1
                <= maxInt + 1) by (vm_compute; discriminate).
  destruct (Tile_pixels heap1 (ImageRGBA 1%positive)
              (uniform (rect 0 0 1 1) blue) (rect 0 0 2 2) (rect 0 0 1 1) _
              f1 1 Hsrc Hwm Hint Halloc HW HW HaW HaW HfW HfW 2%nat
              (le_n 2))
    as (d & h' & out & E & Hd & _ & HA).
  assert (Hd2 : d = 2%positive)
    by (vm_compute in E; injection E as E1 _; symmetry; exact E1).
  subst d. exists h', out. split; [exact E|]. split; [exact Hd|].
  rewrite (HA 0 0 eq_refl), (HA 1 0 eq_refl), (HA 0 1 eq_refl),
    (HA 1 1 eq_refl).
  repeat split; vm_compute; reflexivity.
Defined.

(** A loop that runs once. *)
Lemma for_stride_once {St : Type} (body : Z -> St -> option St)
    (limit stride : Z) (fuel : nat) (s : St) :
  0 < limit -> limit <= stride -> is_int stride ->
  for_stride (S fuel) 0 limit stride body s =
  match body 0 s with Some s' => Some s' | None => None end.
Proof.
  intros Hl Hs Hi. cbn [for_stride].
  replace (0 <? limit) with true by (symmetry; apply Z.ltb_lt; lia).
  destruct (body 0 s) as [s'|]; [|reflexivity].
  replace (int_add 0 stride) with stride
    by (symmetry; apply int_wrap_id; exact Hi).
  destruct fuel; cbn [for_stride];
    replace (stride <? limit) with false by (symmetry; apply Z.ltb_ge; lia);
    reflexivity.
Qed.

(** When the strides are at least the source's width and height, [Tile]
    lays out one tile, at the origin: with an opacity that [Apply] would
    not change, one round of the loops is enough and the call is the call
    of [Apply] with [TopLeft] and no padding. *)
Theorem Tile_single_tile_is_Apply `{Arch} (h : heap) (src watermark : Image)
    (srcBounds wmBounds : Rectangle) (opacity : float64) (spacing : Z) :
  Image_Bounds h src = Some srcBounds ->
  Image_Bounds h watermark = Some wmBounds ->
  0 < Dx srcBounds -> 0 < Dy srcBounds ->
  Dx srcBounds <= int_add (Dx wmBounds) spacing ->
  Dy srcBounds <= int_add (Dy wmBounds) spacing ->
  normalizeOpacity opacity = opacity ->
  forall fuel, (1 <= fuel)%nat ->
    Tile fuel h src watermark opacity spacing =
    Apply h src watermark (mkOptions TopLeft opacity 0 0).
Proof.
  intros Hsrc Hwm Hw Hh HW HH Hop fuel Hfuel.
  destruct (NewRGBA srcBounds) as [p|] eqn:Halloc;
    [|unfold Tile, Apply; rewrite Hsrc, Hwm, Halloc; reflexivity].
  rewrite (Tile_outcome h src watermark srcBounds wmBounds p) by assumption.
  rewrite (Apply_returns h src watermark srcBounds wmBounds p) by assumption.
  unfold Tile_result, Apply_result, Tile_loops_buf.
  destruct fuel as [|fuel]; [lia|].
  rewrite for_stride_once by (try assumption; apply int_wrap_is_int).
  rewrite for_stride_once by (try assumption; apply int_wrap_is_int).
  cbn [Opacity]. rewrite Hop.
  change (placement srcBounds wmBounds (mkOptions TopLeft opacity 0 0))
    with (0, 0).
  cbn [fst snd].
  pose proof (Dx_le_maxInt wmBounds). pose proof (Dy_le_maxInt wmBounds).
  rewrite Tile_one_Apply_loops by lia. reflexivity.
Qed.

Lemma Tile_single_tile_is_Apply_witness :
  Tile 1 heap1 (ImageRGBA 1%positive) (uniform (rect 0 0 1 1) blue) fhalf 1 =
  Apply heap1 (ImageRGBA 1%positive) (uniform (rect 0 0 1 1) blue)
    (mkOptions TopLeft fhalf 0 0).
Proof.
  apply (Tile_single_tile_is_Apply heap1 (ImageRGBA 1%positive)
           (uniform (rect 0 0 1 1) blue) (rect 0 0 2 2) (rect 0 0 1 1)
           fhalf 1);
    first [reflexivity | vm_compute; discriminate | lia].
Defined.

(** Whenever the vertical stride of [Tile], [wmBounds.Dy() + spacing], is
    zero and the source has a row, the call does not return, whatever the
    horizontal stride. *)
Theorem Tile_zero_vertical_stride_diverges `{Arch} (h : heap)
    (src watermark : Image) (srcBounds wmBounds : Rectangle) (p : RGBAImage)
    (opacity : float64) (spacing : Z) :
  Image_Bounds h src = Some srcBounds ->
  Image_Bounds h watermark = Some wmBounds ->
  NewRGBA srcBounds = Some p ->
  0 < Dy srcBounds ->
  int_add (Dy wmBounds) spacing = 0 ->
  forall fuel, Tile fuel h src watermark opacity spacing = OutOfFuel.
Proof.
  intros Hsrc Hwm Halloc Hy Hstride fuel.
  rewrite (Tile_outcome h src watermark srcBounds wmBounds p) by assumption.
  unfold Tile_result, Tile_loops_buf. rewrite Hstride.
  rewrite for_stride_stuck by (try exact Hy; reflexivity). reflexivity.
Qed.

Lemma Tile_zero_vertical_stride_diverges_witness :
  int_add (Dy (rect 0 0 2 1)) (-1) = 0 /\
  forall fuel,
    Tile fuel heap1 (ImageRGBA 1%positive) (uniform (rect 0 0 2 1) red)
      fhalf (-1) = OutOfFuel.
Proof.
  split; [reflexivity|].
  apply (Tile_zero_vertical_stride_diverges heap1 (ImageRGBA 1%positive)
           (uniform (rect 0 0 2 1) red) (rect 0 0 2 2) (rect 0 0 2 1)
           (buffer (rect 0 0 2 2) [zeroRGBA; zeroRGBA; zeroRGBA; zeroRGBA]));
    reflexivity.
Defined.

(* ===================================================================== *)
(** * [DefaultOptions] *)
(* ===================================================================== *)

(** With the options of [DefaultOptions], on a source whose rectangle
    starts at (0,0), [Apply] blends at opacity 0.5 the watermark into the
    box of its size that ends 10 pixels left of and above the bottom-right
    corner of the source, as far as the box lies in the source, and leaves
    every other pixel as the source has it. *)
Theorem Apply_default_options `{Arch} (h : heap) (src watermark : Image)
    (srcBounds wmBounds : Rectangle) (p : RGBAImage) :
  Image_Bounds h src = Some srcBounds ->
  Image_Bounds h watermark = Some wmBounds ->
  int_rect srcBounds ->
  NewRGBA srcBounds = Some p ->
  Min srcBounds = mkPoint 0 0 ->
  is_int (Dx srcBounds - Dx wmBounds) ->
  is_int (Dy srcBounds - Dy wmBounds) ->
  is_int (Dx srcBounds - Dx wmBounds - 10) ->
  is_int (Dy srcBounds - Dy wmBounds - 10) ->
  exists d h' out,
    Apply h src watermark DefaultOptions = Returns (d, h') /\
    h' !! d = Some out /\
    Rect out = srcBounds /\
    forall qx qy, Point_In (mkPoint qx qy) srcBounds = true ->
      RGBAAt out qx qy =
      if bottom_right_box srcBounds wmBounds 10 10 qx qy
      then rgbaModel
             (blendColors (ColorRGBA (rgbaModel (Image_At h src qx qy)))
                (Image_At h watermark
                   (int_add (X (Min wmBounds))
                      (qx - (Dx srcBounds - Dx wmBounds - 10)))
                   (int_add (Y (Min wmBounds))
                      (qy - (Dy srcBounds - Dy wmBounds - 10))))
                fhalf)
      else rgbaModel (Image_At h src qx qy).
Proof.
  intros Hsrc Hwm Hint Halloc Hmin Hw Hh Hwp Hhp.
  assert (Hpl : placement srcBounds wmBounds DefaultOptions =
                (Dx srcBounds - Dx wmBounds - 10,
                 Dy srcBounds - Dy wmBounds - 10)).
  { unfold placement, DefaultOptions; cbn [OptPosition PaddingX PaddingY].
    change (BottomRight =? Center) with false.
    change (BottomRight =? TopLeft) with false.
    change (BottomRight =? TopRight) with false.
    change (BottomRight =? BottomLeft) with false.
    change (BottomRight =? BottomRight) with true. cbv iota.
    rewrite (int_sub_exact (Dx srcBounds)), (int_sub_exact (Dy srcBounds))
      by assumption.
    rewrite !int_sub_exact by assumption. reflexivity. }
  exists (fresh (dom h)).
  exists (<[fresh (dom h) :=
              Apply_result h src watermark srcBounds wmBounds p
                DefaultOptions]> h).
  exists (Apply_result h src watermark srcBounds wmBounds p DefaultOptions).
  split; [apply Apply_returns; assumption|].
  split; [apply lookup_insert_eq|].
  unfold Apply_result. rewrite Hpl. cbn [fst snd]. split.
  - rewrite Apply_loops_Rect. apply canvas_Rect. exact Halloc.
  - intros qx qy Hq.
    rewrite Apply_loops_At;
      [ | assumption | assumption | apply canvas_wf; assumption
        | rewrite canvas_Rect by assumption; exact Hq ].
    rewrite canvas_At by assumption.
    change (normalizeOpacity (Opacity DefaultOptions)) with fhalf.
    replace (covered srcBounds wmBounds (Dx srcBounds - Dx wmBounds - 10)
               (Dy srcBounds - Dy wmBounds - 10) qx qy)
      with (bottom_right_box srcBounds wmBounds 10 10 qx qy);
      [reflexivity|].
    unfold covered, bottom_right_box.
    pose proof (NewRGBA_Some _ _ Halloc) as (Hw0 & Hh0 & _ & _).
    pose proof (proj1 (Point_In_spec qx qy srcBounds) Hq) as [Hqx Hqy].
    rewrite (Dx_exact srcBounds qx), (Dy_exact srcBounds qy) by assumption.
    rewrite Hmin in *; cbn [X Y] in *.
    destruct (Z.leb_spec (X (Max srcBounds) - 0 - Dx wmBounds - 10) qx),
      (Z.ltb_spec qx (X (Max srcBounds) - 0 - 10)),
      (Z.leb_spec (Y (Max srcBounds) - 0 - Dy wmBounds - 10) qy),
      (Z.ltb_spec qy (Y (Max srcBounds) - 0 - 10));
      cbn [andb];
      repeat match goal with
             | |- context [?a <=? ?b] =>
                 destruct (Z.leb_spec a b); try lia; cbn [andb]
             | |- context [?a <? ?b] =>
                 destruct (Z.ltb_spec a b); try lia; cbn [andb]
             end; reflexivity.
Qed.

Lemma Apply_default_options_witness :
  exists d h' out,
    Apply ∅ (uniform (rect 0 0 14 13) red) (uniform (rect 0 0 2 2) blue)
      DefaultOptions = Returns (d, h') /\
    h' !! d = Some out /\
    RGBAAt out 2 1 = mkRGBA x7f x00 x7f xff /\
    RGBAAt out 3 2 = mkRGBA x7f x00 x7f xff /\
    RGBAAt out 4 1 = red /\ RGBAAt out 1 1 = red /\ RGBAAt out 2 0 = red.
Proof.
  assert (Hsrc : Image_Bounds ∅ (uniform (rect 0 0 14 13) red)
                 = Some (rect 0 0 14 13)) by reflexivity.
  assert (Hwm : Image_Bounds ∅ (uniform (rect 0 0 2 2) blue)
                = Some (rect 0 0 2 2)) by reflexivity.
  assert (Hint : int_rect (rect 0 0 14 13))
    by (vm_compute; repeat split; discriminate).
  assert (exists p, NewRGBA (rect 0 0 14 13) = Some p) as [p Halloc]
    by (eexists; vm_compute; reflexivity).
  assert (Hw : is_int (Dx (rect 0 0 14 13) - Dx (rect 0 0 2 2)))
    by (vm_compute; split; discriminate).
  assert (Hh : is_int (Dy (rect 0 0 14 13) - Dy (rect 0 0 2 2)))
    by (vm_compute; split; discriminate).
  assert (Hwp : is_int (Dx (rect 0 0 14 13) - Dx (rect 0 0 2 2) - 10))
    by (vm_compute; split; discriminate).
  assert (Hhp : is_int (Dy (rect 0 0 14 13) - Dy (rect 0 0 2 2) - 10))
    by (vm_compute; split; discriminate).
  destruct (Apply_default_options ∅ (uniform (rect 0 0 14 13) red)
              (uniform (rect 0 0 2 2) blue) (rect 0 0 14 13) (rect 0 0 2 2)
              p Hsrc Hwm Hint Halloc eq_refl Hw Hh Hwp Hhp)
    as (d & h' & out & E & Hd & _ & HA).
  exists d, h', out. split; [exact E|]. split; [exact Hd|].
  rewrite (HA 2 1 eq_refl), (HA 3 2 eq_refl), (HA 4 1 eq_refl),
    (HA 1 1 eq_refl), (HA 2 0 eq_refl).
  repeat split; vm_compute; reflexivity.
Defined.

(* ===================================================================== *)
(** * [ApplyFromFiles], [SaveJPEG]: statements *)
(* ===================================================================== *)

Section FilesFacts.
Context `{Arch}.
Variables error File : Type.
Variable open_file :
  list (call error File) -> String.string -> error + File.
Variable decode : list (call error File) -> File -> error + Image.

Local Abbreviation run := (ApplyFromFiles error File open_file decode).

(** The calls [ApplyFromFiles] makes, case by case. *)
Lemma ApplyFromFiles_cases (h : heap) (srcPath watermarkPath : String.string)
    (opts : Options) (log : list (call error File)) :
  (exists err,
     run h srcPath watermarkPath opts log =
     (Returns (inl err), log ++ [os_Open srcPath (inl err)])) \/
  (exists srcFile err,
     run h srcPath watermarkPath opts log =
     (Returns (inl err),
      log ++ [os_Open srcPath (inr srcFile);
              image_Decode srcFile (inl err); File_Close srcFile])) \/
  (exists srcFile src err,
     run h srcPath watermarkPath opts log =
     (Returns (inl err),
      log ++ [os_Open srcPath (inr srcFile);
              image_Decode srcFile (inr src);
              os_Open watermarkPath (inl err); File_Close srcFile])) \/
  (exists srcFile src wmFile err,
     run h srcPath watermarkPath opts log =
     (Returns (inl err),
      log ++ [os_Open srcPath (inr srcFile);
              image_Decode srcFile (inr src);
              os_Open watermarkPath (inr wmFile);
              image_Decode wmFile (inl err);
              File_Close wmFile; File_Close srcFile])) \/
  (exists srcFile src wmFile wm,
     run h srcPath watermarkPath opts log =
     (outcome_map inr (Apply h src wm opts),
      log ++ [os_Open srcPath (inr srcFile);
              image_Decode srcFile (inr src);
              os_Open watermarkPath (inr wmFile);
              image_Decode wmFile (inr wm);
              File_Close wmFile; File_Close srcFile])).
Proof.
  unfold ApplyFromFiles.
  destruct (open_file log srcPath) as [err | srcFile];
    [left; exists err; reflexivity | right].
  destruct (decode _ srcFile) as [err | src];
    [left; exists srcFile, err; rewrite <- !app_assoc; reflexivity | right].
  destruct (open_file _ watermarkPath) as [err | wmFile];
    [left; exists srcFile, src, err; rewrite <- !app_assoc; reflexivity
    | right].
  destruct (decode _ wmFile) as [err | wm];
    [left | right]; do 4 eexists; rewrite <- !app_assoc; reflexivity.
Qed.

(** [ApplyFromFiles] closes every file it has opened, once, the file
    opened last first, on each of its ways out: after an error of a call,
    after the return of [Apply] and after a panic of [Apply]. *)
Theorem ApplyFromFiles_closes_files (h : heap)
    (srcPath watermarkPath : String.string) (opts : Options)
    (log : list (call error File)) :
  exists calls,
    snd (run h srcPath watermarkPath opts log) = log ++ calls /\
    omap closed calls = rev (omap opened calls).
Proof.
  destruct (ApplyFromFiles_cases h srcPath watermarkPath opts log)
    as [(err & E) | [(sf & err & E) | [(sf & src & err & E)
       | [(sf & src & wf & err & E) | (sf & src & wf & wm & E)]]]];
    rewrite E; eexists; (split; [reflexivity|]); reflexivity.
Qed.

(** [ApplyFromFiles] stops at the first call that fails and returns the
    error of that call: at most one call of a run fails, and every call
    after it closes a file. When no call fails the run decodes two images,
    the source first, and ends as [Apply] ends on them. *)
Theorem ApplyFromFiles_first_error (h : heap)
    (srcPath watermarkPath : String.string) (opts : Options)
    (log : list (call error File)) :
  exists calls,
    snd (run h srcPath watermarkPath opts log) = log ++ calls /\
    match omap failure calls with
    | [] =>
        exists src wm,
          omap decoded calls = [src; wm] /\
          fst (run h srcPath watermarkPath opts log) =
          outcome_map inr (Apply h src wm opts)
    | [err] =>
        fst (run h srcPath watermarkPath opts log) = Returns (inl err) /\
        exists before c after,
          calls = before ++ c :: after /\ failure c = Some err /\
          Forall (fun c' => is_Some (closed c')) after
    | _ => False
    end.
Proof.
  destruct (ApplyFromFiles_cases h srcPath watermarkPath opts log)
    as [(err & E) | [(sf & err & E) | [(sf & src & err & E)
       | [(sf & src & wf & err & E) | (sf & src & wf & wm & E)]]]];
    rewrite E; eexists; (split; [reflexivity|]); cbn.
  - split; [reflexivity|]. exists [], (os_Open srcPath (inl err)), [].
    repeat split. constructor.
  - split; [reflexivity|].
    exists [os_Open srcPath (inr sf)], (image_Decode sf (inl err)),
      [File_Close sf].
    repeat split. repeat constructor; eexists; reflexivity.
  - split; [reflexivity|].
    exists [os_Open srcPath (inr sf); image_Decode sf (inr src)],
      (os_Open watermarkPath (inl err)), [File_Close sf].
    repeat split. repeat constructor; eexists; reflexivity.
  - split; [reflexivity|].
    exists [os_Open srcPath (inr sf); image_Decode sf (inr src);
            os_Open watermarkPath (inr wf)],
      (image_Decode wf (inl err)), [File_Close wf; File_Close sf].
    repeat split. repeat constructor; eexists; reflexivity.
  - exists src, wm. split; reflexivity.
Qed.
End FilesFacts.

(** The quality [SaveJPEG] hands to the encoder is a quality of the JPEG
    scale, 1 to 100: the quality it is given when that is one, and 85 for
    every other, zero and the negative ones included. *)
Theorem SaveJPEG_quality (Writer Result : Type)
    (jpeg_Encode : Writer -> Image -> Z -> Result) (img : Image)
    (w : Writer) (quality : Z) :
  exists q,
    SaveJPEG Writer Result jpeg_Encode img w quality = jpeg_Encode w img q /\
    1 <= q <= 100 /\
    (1 <= quality <= 100 -> q = quality) /\
    (quality < 1 \/ 100 < quality -> q = 85).
Proof.
  unfold SaveJPEG.
  destruct (Z.leb_spec quality 0); cbn [orb].
  - exists 85. repeat split; lia.
  - destruct (Z.gtb_spec quality 100).
    + exists 85. repeat split; lia.
    + exists quality. repeat split; lia.
Qed.
